(** * Audio visualizer core: ring-buffer tap, band analyzer, playback tracker

    A shallow embedding of the core of [main.go]:
    - [visualTap] with [newVisualTap], [Stream] and [snapshot];
    - [updateAudioData] (the 64-band analyzer) and [clamp01];
    - [updateAudioPosition], [seekToPosition], the tail of [loadAndPlay]
      and its end-of-stream callback.

    Conventions of the embedding.
    - Go [int], [time.Duration] and [beep.SampleRate] are 64-bit integers:
      they are modelled in [Z], with the wrap-around of the arithmetic that
      can overflow written out ([wrap64]).
    - A run-time panic (index out of range, negative [make] size, integer
      division by zero) is the result [None].
    - [float64] is modelled by the real numbers: the operations are the exact
      ones, rounding, infinities and NaN are outside the model.
    - The reader/writer lock of the tap is not modelled: every operation is
      one atomic step on the tap. *)

From Stdlib Require Import String Ascii DecimalString.
From Stdlib Require Import ZArith List Lia Bool Reals Lra.
Import ListNotations.

Local Open Scope Z_scope.

(** ** Panics *)

Notation "x <- e ;; k" :=
  (match e with Some x => k | None => None end)
  (at level 61, e at next level, right associativity, only parsing).

(** ** Go slices *)

Section Slices.
Context {A : Type}.

(** [len(s)] *)
Definition len (s : list A) : Z := Z.of_nat (length s).

(** [s[i]], panics out of range *)
Definition slice_get (s : list A) (i : Z) : option A :=
  if i <? 0 then None else nth_error s (Z.to_nat i).

(** [s[i] = x], panics out of range *)
Definition slice_set (s : list A) (i : Z) (x : A) : option (list A) :=
  if (0 <=? i) && (i <? len s)
  then Some (firstn (Z.to_nat i) s ++ x :: skipn (Z.to_nat (i + 1)) s)
  else None.

(** [make([]A, n)] filled with the zero value [z] *)
Definition make (z : A) (n : Z) : option (list A) :=
  if n <? 0 then None else Some (repeat z (Z.to_nat n)).

(** The last [k] elements of a list (all of it when it is shorter). *)
Definition lastn (k : nat) (l : list A) : list A :=
  skipn (length l - k) l.
End Slices.

(** ** float64 and frames *)

Definition float64 : Type := R.

(** [[2]float64], one stereo sample *)
Definition Frame : Type := (float64 * float64)%type.

Definition zeroFrame : Frame := (0%R, 0%R).

(** ** The ring-buffer tap *)

Record visualTap : Type := mkTap {
  buffer : list Frame;
  nextIndex : Z
}.

(** [newVisualTap(src, ringSize)]; the wrapped source is the caller of
    [Stream] in this model. *)
Definition newVisualTap (ringSize : Z) : option visualTap :=
  b <- make zeroFrame ringSize ;;
  Some {| buffer := b; nextIndex := 0 |}.

(** The body of the loop of [Stream], for the frames [samples[0..n)] that
    the source delivered. *)
Fixpoint record (delivered : list Frame) (t : visualTap) : option visualTap :=
  match delivered with
  | [] => Some t
  | f :: rest =>
      b <- slice_set (buffer t) (nextIndex t) f ;;
      let ni := nextIndex t + 1 in
      let ni := if ni >=? len b then 0 else ni in
      record rest {| buffer := b; nextIndex := ni |}
  end.

(** [Stream(samples)]: the source fills [samples[0..n)] with [delivered]
    and answers [(n, ok)]; the tap records them and returns the same pair. *)
Definition Stream (t : visualTap) (delivered : list Frame) (ok : bool)
  : option (visualTap * (Z * bool)) :=
  let n := len delivered in
  if n >? 0
  then t' <- record delivered t ;; Some (t', (n, ok))
  else Some (t, (n, ok)).

(** A run of [Stream] calls, one per batch. *)
Fixpoint Streams (t : visualTap) (batches : list (list Frame * bool))
  : option visualTap :=
  match batches with
  | [] => Some t
  | (fs, ok) :: rest =>
      r <- Stream t fs ok ;;
      Streams (fst r) rest
  end.

(** The backwards walk of [snapshot]: [cnt] iterations from [idx]. *)
Fixpoint walk_back (cnt : nat) (buf : list Frame) (idx : Z) (out : list Frame)
  : option (list Frame) :=
  match cnt with
  | O => Some out
  | S c =>
      f <- slice_get buf idx ;;
      let idx := idx - 1 in
      let idx := if idx <? 0 then len buf - 1 else idx in
      walk_back c buf idx (out ++ [f])
  end.

(** The in-place reversal that ends [snapshot]: the two cursors [i] and [j]
    move towards each other and swap. *)
Fixpoint reverse_loop (fuel : nat) (i j : Z) (out : list Frame)
  : option (list Frame) :=
  match fuel with
  | O => Some out
  | S k =>
      if i <? j then
        a <- slice_get out i ;;
        b <- slice_get out j ;;
        o1 <- slice_set out i b ;;
        o2 <- slice_set o1 j a ;;
        reverse_loop k (i + 1) (j - 1) o2
      else Some out
  end.

Definition snapshot (t : visualTap) (n : Z) : option (list Frame) :=
  let n := if n >? len (buffer t) then len (buffer t) else n in
  if n <? 0 then None (* make([][2]float64, 0, n) *) else
  let idx := nextIndex t - 1 in
  let idx := if idx <? 0 then len (buffer t) - 1 else idx in
  out <- walk_back (Z.to_nat n) (buffer t) idx [] ;;
  reverse_loop (length out) 0 (len out - 1) out.


(** ** Machine integers, durations and the float64 library calls *)

Definition maxInt64 : Z := 2 ^ 63 - 1.
Definition minInt64 : Z := - 2 ^ 63.

(** Two's complement wrap-around of a 64-bit signed result. *)
Definition wrap64 (z : Z) : Z := (z + 2 ^ 63) mod 2 ^ 64 - 2 ^ 63.

(** Go's integer [a / b]: truncated, panics on a zero divisor. *)
Definition div64 (a b : Z) : option Z :=
  if b =? 0 then None else Some (wrap64 (Z.quot a b)).

(** [time.Duration] counts nanoseconds. *)
Definition Millisecond : Z := 1000000.
Definition Second : Z := 1000000000.

(** [t.Sub(u)] of package time, which saturates; [time.Since(u)] is
    [time.Now().Sub(u)]. Instants are nanoseconds on the clock's axis. *)
Definition time_Sub (t u : Z) : Z := Z.max minInt64 (Z.min maxInt64 (t - u)).

(** [sr.N(d)] of beep: [int(d * time.Duration(sr) / time.Second)]. *)
Definition SampleRate_N (sr d : Z) : Z :=
  wrap64 (Z.quot (wrap64 (d * sr)) Second).

(** [int(x)] for a float64 [x]: the fraction is discarded. *)
Definition trunc (x : float64) : Z :=
  if Rle_dec 0 x then Int_part x else - Int_part (- x).

(** [math.Pow(x, y)] on the arguments the analyzer passes ([0 <= x], [0 < y]):
    [Pow(0, y) = 0], and the real power elsewhere. *)
Definition math_Pow (x y : float64) : float64 :=
  if Req_dec_T x 0 then 0%R else Rpower x y.

(** ** The band analyzer *)

Definition visualRingSize : Z := 8192.
Definition smoothingFactor : float64 := (6 / 10)%R.
Definition nBands : Z := 64.

Definition clamp01 (v : float64) : float64 :=
  if Rlt_dec v 0 then 0%R
  else if Rlt_dec 1 v then 1%R
  else v.

(** The inner loop of [updateAudioData]: [cnt] iterations from index [s]. *)
Fixpoint sumSquaresLoop (cnt : nat) (samples : list Frame) (s : Z)
  (sumSquares : float64) : option float64 :=
  match cnt with
  | O => Some sumSquares
  | S c =>
      fr <- slice_get samples s ;;
      let mono := ((fst fr + snd fr) * (1 / 2))%R in
      sumSquaresLoop c samples (s + 1) (sumSquares + mono * mono)%R
  end.

(** The loop over the bands, [cnt] iterations from band [i]; it stops at the
    first band whose segment starts beyond the samples. *)
Fixpoint bandLoop (cnt : nat) (i : Z) (samples : list Frame) (segmentSize : Z)
  (audioData : list float64) : option (list float64) :=
  match cnt with
  | O => Some audioData
  | S c =>
      let start := i * segmentSize in
      let end_ := start + segmentSize in
      if start >=? len samples then Some audioData else
      let end_ := if end_ >? len samples then len samples else end_ in
      sumSquares <- sumSquaresLoop (Z.to_nat (end_ - start)) samples start 0%R ;;
      let rms := sqrt (sumSquares / IZR (end_ - start)) in
      let mag := math_Pow rms (3 / 10)%R in
      prev <- slice_get audioData i ;;
      audioData <- slice_set audioData i
        (smoothingFactor * prev + (1 - smoothingFactor) * mag)%R ;;
      bandLoop c (i + 1) samples segmentSize audioData
  end.

(** [updateAudioData] from the point where it holds a non-empty snapshot. *)
Definition analyze (samples : list Frame) (audioData : list float64)
  : option (list float64) :=
  audioData <- (if len audioData =? nBands then Some audioData
                else make 0%R nBands) ;;
  let segmentSize := trunc (Rmax 1 (IZR (len samples) / IZR nBands)) in
  bandLoop (Z.to_nat nBands) 0 samples segmentSize audioData.

(** ** The player state *)

Inductive error : Type := mkError (code : nat).

(** The decoder behind [beep.StreamSeekCloser]: its length in samples and
    the offsets [Seek] was called with, most recent first. *)
Record StreamSeekCloser : Type := mkStreamer {
  Len : Z;
  seekCalls : list Z
}.

Record game : Type := mkGame {
  streamer : option StreamSeekCloser;
  sampleRate : Z;                 (* format.SampleRate *)
  ctrl : option bool;             (* ctrl.Paused when ctrl is not nil *)
  tap : option visualTap;
  audioData : list float64;
  audioDuration : Z;
  audioPosition : Z;
  lastSeekTime : Z;
  paused : bool;
  lastErr : option error
}.

(** The zero [time.Time], January 1 of year 1, on the Unix axis. *)
Definition zeroTime : Z := - 62135596800 * Second.

Definition NewGame : game :=
  {| streamer := None; sampleRate := 0; ctrl := None; tap := None;
     audioData := []; audioDuration := 0; audioPosition := 0;
     lastSeekTime := zeroTime; paused := false; lastErr := None |}.

Definition set_audioData (g : game) (a : list float64) : game :=
  {| streamer := streamer g; sampleRate := sampleRate g; ctrl := ctrl g;
     tap := tap g; audioData := a; audioDuration := audioDuration g;
     audioPosition := audioPosition g; lastSeekTime := lastSeekTime g;
     paused := paused g; lastErr := lastErr g |}.

Definition set_audioPosition (g : game) (p : Z) : game :=
  {| streamer := streamer g; sampleRate := sampleRate g; ctrl := ctrl g;
     tap := tap g; audioData := audioData g; audioDuration := audioDuration g;
     audioPosition := p; lastSeekTime := lastSeekTime g;
     paused := paused g; lastErr := lastErr g |}.

Definition set_streamer (g : game) (d : option StreamSeekCloser) : game :=
  {| streamer := d; sampleRate := sampleRate g; ctrl := ctrl g;
     tap := tap g; audioData := audioData g; audioDuration := audioDuration g;
     audioPosition := audioPosition g; lastSeekTime := lastSeekTime g;
     paused := paused g; lastErr := lastErr g |}.

Definition set_lastErr (g : game) (e : option error) : game :=
  {| streamer := streamer g; sampleRate := sampleRate g; ctrl := ctrl g;
     tap := tap g; audioData := audioData g; audioDuration := audioDuration g;
     audioPosition := audioPosition g; lastSeekTime := lastSeekTime g;
     paused := paused g; lastErr := e |}.

Definition set_lastSeekTime (g : game) (t : Z) : game :=
  {| streamer := streamer g; sampleRate := sampleRate g; ctrl := ctrl g;
     tap := tap g; audioData := audioData g; audioDuration := audioDuration g;
     audioPosition := audioPosition g; lastSeekTime := t;
     paused := paused g; lastErr := lastErr g |}.

Definition togglePause (g : game) : game :=
  match ctrl g with
  | None => g
  | Some _ =>
      {| streamer := streamer g; sampleRate := sampleRate g;
         ctrl := Some (negb (paused g));
         tap := tap g; audioData := audioData g;
         audioDuration := audioDuration g; audioPosition := audioPosition g;
         lastSeekTime := lastSeekTime g;
         paused := negb (paused g); lastErr := lastErr g |}
  end.

Definition updateAudioData (g : game) : option game :=
  match tap g with
  | None => Some g
  | Some t =>
      samples <- snapshot t 2048 ;;
      if len samples =? 0 then Some g else
      a <- analyze samples (audioData g) ;;
      Some (set_audioData g a)
  end.

Definition updateAudioPosition (g : game) : game :=
  match streamer g with
  | None => g
  | Some _ =>
      if paused g then g else
      let p := wrap64 (audioPosition g + Z.quot Second 60) in
      let p := if p >? audioDuration g then audioDuration g else p in
      set_audioPosition g p
  end.

(** The sample offset [seekToPosition] hands to the decoder. *)
Definition seekTarget (g : game) (maxPos : Z) (pos : float64) : Z :=
  let pos := if Rlt_dec pos 0 then 0%R else pos in
  let pos := if Rlt_dec 1 pos then 1%R else pos in
  let seekPos :=
    trunc (pos * IZR (audioDuration g) * IZR (sampleRate g) / IZR Second)%R in
  let seekPos := if seekPos <? 0 then 0 else seekPos in
  if seekPos >=? maxPos then wrap64 (maxPos - 1) else seekPos.

(** [seekToPosition(pos)]. The clock is read twice, by [time.Since] ([now1])
    and by [time.Now] ([now2]); [seek] is the answer of the decoder's [Seek]
    at this call ([None] is the nil error). *)
Definition seekToPosition (g : game) (pos : float64) (now1 now2 : Z)
  (seek : Z -> option error) : option game :=
  match streamer g with
  | None => Some g
  | Some d =>
      if time_Sub now1 (lastSeekTime g) <? 50 * Millisecond then Some g else
      let seekPos := seekTarget g (Len d) pos in
      let d := {| Len := Len d; seekCalls := seekPos :: seekCalls d |} in
      let g := set_streamer g (Some d) in
      match seek seekPos with
      | Some err => Some (set_lastErr g (Some err))
      | None =>
          p <- div64 (wrap64 (seekPos * Second))
                 (SampleRate_N (sampleRate g) Second) ;;
          Some (set_lastSeekTime (set_audioPosition g p) now2)
      end
  end.

(** The tail of [loadAndPlay], once the file is decoded into [d] with
    sample rate [sr] and the speaker is initialised. *)
Definition loadAndPlay (g : game) (d : StreamSeekCloser) (sr : Z)
  : option game :=
  t <- newVisualTap visualRingSize ;;
  dur <- div64 (wrap64 (Len d * Second)) (SampleRate_N sr Second) ;;
  Some {| streamer := Some d; sampleRate := sr; ctrl := Some false;
          tap := Some t; audioData := audioData g;
          audioDuration := dur; audioPosition := 0;
          lastSeekTime := lastSeekTime g;
          paused := false; lastErr := lastErr g |}.

(** The callback [loadAndPlay] chains after the stream. *)
Definition streamEnded (g : game) : game :=
  {| streamer := None; sampleRate := sampleRate g; ctrl := ctrl g;
     tap := tap g; audioData := audioData g;
     audioDuration := 0; audioPosition := 0;
     lastSeekTime := lastSeekTime g;
     paused := paused g; lastErr := lastErr g |}.

(** ** Descriptions used by the statements *)

(** The ring read in chronological order: from the write cursor to the end,
    then from the start to the cursor. *)
Definition chronological (t : visualTap) : list Frame :=
  skipn (Z.to_nat (nextIndex t)) (buffer t)
  ++ firstn (Z.to_nat (nextIndex t)) (buffer t).

(** All the frames a run of [Stream] calls delivered, in order. *)
Definition pushed (batches : list (list Frame * bool)) : list Frame :=
  concat (map fst batches).

(** The ring as the backwards walk of [snapshot] sees it when it stands at
    [idx]: the frames after [idx], then those up to [idx]. *)
Definition ring_until (buf : list Frame) (idx : Z) : list Frame :=
  skipn (Z.to_nat (idx + 1)) buf ++ firstn (Z.to_nat (idx + 1)) buf.

(** The cursor move of that walk. *)
Definition previous_index (buf : list Frame) (idx : Z) : Z :=
  let idx := idx - 1 in
  if idx <? 0 then len buf - 1 else idx.

(** The cursor of a tap points into its ring (or the ring is empty). *)
Definition tap_ok (t : visualTap) : Prop :=
  0 <= nextIndex t < len (buffer t)
  \/ (buffer t = [] /\ nextIndex t = 0).

(** The frames [start, start + size) of a snapshot, cut at its end. *)
Definition segment (samples : list Frame) (start size : Z) : list Frame :=
  firstn (Z.to_nat size) (skipn (Z.to_nat start) samples).

Definition mono (f : Frame) : float64 := ((fst f + snd f) * (1 / 2))%R.

Definition sumSquares (seg : list Frame) : float64 :=
  fold_left (fun acc f => (acc + mono f * mono f)%R) seg 0%R.

Definition rms (seg : list Frame) : float64 :=
  sqrt (sumSquares seg / IZR (len seg)).

Definition magnitude (seg : list Frame) : float64 :=
  math_Pow (rms seg) (3 / 10)%R.

Definition smooth (prev mag : float64) : float64 :=
  (smoothingFactor * prev + (1 - smoothingFactor) * mag)%R.

(** The bands [updateAudioData] starts from: the stored ones when there are
    64 of them, 64 zeros otherwise. *)
Definition previousBands (audioData : list float64) : list float64 :=
  if len audioData =? nBands then audioData
  else repeat 0%R (Z.to_nat nBands).

(** Band [i] after an update that cuts segments of [size] frames. *)
Definition bandAfter (size : Z) (samples : list Frame) (prev : list float64)
  (i : Z) : float64 :=
  if i * size <? len samples
  then smooth (nth (Z.to_nat i) prev 0%R)
              (magnitude (segment samples (i * size) size))
  else nth (Z.to_nat i) prev 0%R.

(** The segment size of the code, in integers. *)
Definition segmentSizeOf (n : Z) : Z := Z.max 1 (n / nBands).

(** The segment size in the words of the specification: [ceil(N / 64)]. *)
Definition spec_segmentSize (n : Z) : Z := (n + nBands - 1) / nBands.

(** The update in the words of the specification: 64 contiguous segments of
    [ceil(N / 64)] frames, each non-empty one smoothed into its band. *)
Definition spec_update (samples : list Frame) (prev : list float64)
  : list float64 :=
  map (fun i => bandAfter (spec_segmentSize (len samples)) samples prev
                  (Z.of_nat i))
      (seq 0 (Z.to_nat nBands)).

(** The update does what the specification words say on this input. *)
Definition update_meets_spec (samples : list Frame) (audioData : list float64)
  : Prop :=
  forall bands,
    analyze samples audioData = Some bands ->
    bands = spec_update samples (previousBands audioData).

Definition unit_interval (v : float64) : Prop := (0 <= v <= 1)%R.

Definition frame_in_range (f : Frame) : Prop :=
  (-1 <= fst f <= 1)%R /\ (-1 <= snd f <= 1)%R.

(** [n] updates in a row with the same snapshot. *)
Fixpoint analyze_n (n : nat) (samples : list Frame) (audioData : list float64)
  : option (list float64) :=
  match n with
  | O => Some audioData
  | S k => a <- analyze samples audioData ;; analyze_n k samples a
  end.

(** A decoder the player can keep time for: a positive sample rate of at
    most a gigahertz and a length whose nanoseconds fit [time.Duration]. *)
Definition playable (d : StreamSeekCloser) (sr : Z) : Prop :=
  0 < sr <= Second /\ 0 <= Len d /\ Len d * Second <= maxInt64.

(** The duration [loadAndPlay] computes for the loaded decoder. *)
Definition loaded (g : game) : Prop :=
  match streamer g with
  | Some d => playable d (sampleRate g)
              /\ audioDuration g = Z.quot (Len d * Second) (sampleRate g)
  | None => True
  end.

(** One operation of the player on its playback state. [Update] calls
    [seekToPosition] only with a streamer and a positive duration. *)
Inductive step : game -> game -> Prop :=
| step_tick g :
    step g (updateAudioPosition g)
| step_seek g pos now1 now2 seek g' :
    streamer g <> None -> audioDuration g > 0 ->
    seekToPosition g pos now1 now2 seek = Some g' ->
    step g g'
| step_pause g :
    step g (togglePause g)
| step_analyze g g' :
    updateAudioData g = Some g' ->
    step g g'
| step_load g d sr g' :
    playable d sr ->
    loadAndPlay g d sr = Some g' ->
    step g g'
| step_end g :
    step g (streamEnded g).

Inductive reachable : game -> Prop :=
| reach_new : reachable NewGame
| reach_step g g' : reachable g -> step g g' -> reachable g'.

Definition position_in_range (g : game) : Prop :=
  0 <= audioPosition g <= audioDuration g.

(** A ten-second stream at 44100 Hz, and the player just after loading it. *)
Definition tenSecondStream : StreamSeekCloser :=
  {| Len := 441000; seekCalls := [] |}.

Definition tenSecondGame : game :=
  {| streamer := Some tenSecondStream; sampleRate := 44100;
     ctrl := Some false;
     tap := Some {| buffer := repeat zeroFrame (Z.to_nat visualRingSize);
                    nextIndex := 0 |};
     audioData := []; audioDuration := 10 * Second; audioPosition := 0;
     lastSeekTime := zeroTime; paused := false; lastErr := None |}.

(** ** The rest of the player: rendering helpers and input handling *)

(** [n] calls of [updateAudioPosition] in a row, one per frame. *)
Fixpoint ticks (n : nat) (g : game) : game :=
  match n with
  | O => g
  | S k => ticks k (updateAudioPosition g)
  end.

Definition windowWidth : Z := 1024.
Definition windowHeight : Z := 512.

(** The geometry of the progress bar, as [Update] and [drawProgressBar]
    both compute it. *)
Definition barHeight : Z := 30.
Definition barY : Z := windowHeight - 120.
Definition barWidth : Z := windowWidth - 40.
Definition barX : Z := 20.

(** [math.Mod(x, y)] for [y > 0]: the remainder with the sign of [x]. *)
Definition math_Mod (x y : float64) : float64 :=
  (x - y * IZR (trunc (x / y)))%R.

(** [uint8(x)] for a float64 [x] in [0, 256): the fraction is discarded
    (Go leaves the result open outside that range). *)
Definition uint8 (x : float64) : Z := trunc x.

Definition hsvToRgb (h s v : float64) : Z * Z * Z :=
  let h := math_Mod h 360%R in
  let c := (v * s)%R in
  let x := (c * (1 - Rabs (math_Mod (h / 60)%R 2%R - 1)))%R in
  let m := (v - c)%R in
  let rgb :=
    if Rlt_dec h 60%R then (c, x, 0%R)
    else if Rlt_dec h 120%R then (x, c, 0%R)
    else if Rlt_dec h 180%R then (0%R, c, x)
    else if Rlt_dec h 240%R then (0%R, x, c)
    else if Rlt_dec h 300%R then (x, 0%R, c)
    else (c, 0%R, x) in
  let '(r, g, b) := rgb in
  (uint8 ((r + m) * 255)%R, uint8 ((g + m) * 255)%R,
   uint8 ((b + m) * 255)%R).

(** [fmt.Sprintf("%d", z)] *)
Definition fmt_d (z : Z) : String.string :=
  DecimalString.NilZero.string_of_int (Z.to_int z).

(** [fmt.Sprintf("%02d", z)]: zeros are added up to two characters, the
    sign counting as one. *)
Definition fmt_02d (z : Z) : String.string :=
  if z <? 0 then fmt_d z
  else if (String.length (fmt_d z) <? 2)%nat
       then String.append "0"%string (fmt_d z)
       else fmt_d z.

Definition Minute : Z := 60 * Second.

(** [d.Minutes()] and [d.Seconds()] of package time. *)
Definition Duration_Minutes (d : Z) : float64 :=
  (IZR (Z.quot d Minute) + IZR (Z.rem d Minute) / (60 * 1000000000))%R.

Definition Duration_Seconds (d : Z) : float64 :=
  (IZR (Z.quot d Second) + IZR (Z.rem d Second) / 1000000000)%R.

Definition formatDuration (d : Z) : String.string :=
  let minutes := trunc (Duration_Minutes d) in
  let seconds := Z.rem (trunc (Duration_Seconds d)) 60 in
  String.append (fmt_02d minutes)
    (String.append ":"%string (fmt_02d seconds)).

(** What [drawProgressBar] puts on screen, when it draws at all: the
    progress, the width of the fill (drawn for a positive progress only),
    the abscissa of the indicator and the two time labels. *)
Record progressBarView : Type := mkBarView {
  progress : float64;
  fillWidth : option float64;
  indicatorX : float64;
  currentTime : String.string;
  totalTime : String.string
}.

Definition drawProgressBar (g : game) : option progressBarView :=
  match streamer g with
  | None => None
  | Some _ =>
      if audioDuration g =? 0 then None else
      let progress :=
        if audioDuration g >? 0
        then (IZR (audioPosition g) / IZR (audioDuration g))%R
        else 0%R in
      Some {| progress := progress;
              fillWidth := if Rlt_dec 0%R progress
                           then Some (progress * IZR barWidth)%R
                           else None;
              indicatorX := (IZR barX + progress * IZR barWidth)%R;
              currentTime := formatDuration (audioPosition g);
              totalTime := formatDuration (audioDuration g) |}
  end.

(** The player with the progress-bar fields of [game]. *)
Record player : Type := mkPlayer {
  core : game;
  progressBarHovered : bool;
  progressBarDragging : bool;
  progressBarDragStart : float64
}.

(** What one call of [seekToPosition] meets: the two clock readings and the
    answer of the decoder. *)
Record seekEnv : Type := mkSeekEnv {
  now1 : Z;
  now2 : Z;
  answer : Z -> option error
}.

(** The cursor is over the progress bar. *)
Definition overBar (mouseX mouseY : Z) : bool :=
  (mouseX >=? barX) && (mouseX <=? barX + barWidth)
  && (mouseY >=? barY) && (mouseY <=? barY + barHeight).

(** The fraction of the bar under the cursor. *)
Definition barFraction (mouseX : Z) : float64 :=
  (IZR (mouseX - barX) / IZR barWidth)%R.

(** The block "Progress bar interactions" of [Update]: [pressed] and
    [released] are [inpututil.IsMouseButtonJustPressed] and
    [IsMouseButtonJustReleased] for the left button; [e1] serves the seek of
    the click, [e2] the seek of the drag. *)
Definition updateProgressBar (p : player) (mouseX mouseY : Z)
  (pressed released : bool) (e1 e2 : seekEnv) : option player :=
  let hovered := overBar mouseX mouseY in
  let p := {| core := core p; progressBarHovered := hovered;
              progressBarDragging := progressBarDragging p;
              progressBarDragStart := progressBarDragStart p |} in
  if hovered
     && (match streamer (core p) with Some _ => true | None => false end)
     && (audioDuration (core p) >? 0)
  then
    p <- (if pressed then
            g <- seekToPosition (core p) (barFraction mouseX)
                   (now1 e1) (now2 e1) (answer e1) ;;
            Some {| core := g; progressBarHovered := hovered;
                    progressBarDragging := true;
                    progressBarDragStart := barFraction mouseX |}
          else Some p) ;;
    let p :=
      if released && progressBarDragging p
      then {| core := core p; progressBarHovered := hovered;
              progressBarDragging := false;
              progressBarDragStart := progressBarDragStart p |}
      else p in
    if progressBarDragging p then
      let mouseProgress := barFraction mouseX in
      let mouseProgress :=
        if Rlt_dec mouseProgress 0%R then 0%R else mouseProgress in
      let mouseProgress :=
        if Rlt_dec 1%R mouseProgress then 1%R else mouseProgress in
      let currentProgress :=
        (IZR (audioPosition (core p)) / IZR (audioDuration (core p)))%R in
      if Rlt_dec (1 / 100)%R (Rabs (mouseProgress - currentProgress)%R) then
        g <- seekToPosition (core p) mouseProgress
               (now1 e2) (now2 e2) (answer e2) ;;
        Some {| core := g; progressBarHovered := hovered;
                progressBarDragging := progressBarDragging p;
                progressBarDragStart := progressBarDragStart p |}
      else Some p
    else Some p
  else Some p.

(** Two snapshots carry the same mono mix, frame by frame. *)
Definition same_mono (s1 s2 : list Frame) : Prop :=
  map mono s1 = map mono s2.

(** ** Slices *)

Section SliceFacts.
Context {A : Type}.
Implicit Types (s a r : list A) (x y : A).

Lemma len_app a r : len (a ++ r) = len a + len r.
Proof. unfold len. rewrite length_app. lia. Qed.

Lemma len_nonneg s : 0 <= len s.
Proof. unfold len. lia. Qed.

Lemma slice_get_app a x r : slice_get (a ++ x :: r) (len a) = Some x.
Proof.
  unfold slice_get, len.
  destruct (Z.ltb_spec (Z.of_nat (length a)) 0); [lia|].
  rewrite Nat2Z.id, nth_error_app2, Nat.sub_diag by lia. reflexivity.
Qed.

Lemma slice_set_app a x y r :
  slice_set (a ++ x :: r) (len a) y = Some (a ++ y :: r).
Proof.
  unfold slice_set.
  assert ((0 <=? len a) && (len a <? len (a ++ x :: r)) = true) as ->.
  { rewrite len_app. unfold len. cbn [length].
    apply andb_true_iff. split; [apply Z.leb_le | apply Z.ltb_lt]; lia. }
  unfold len.
  replace (Z.to_nat (Z.of_nat (length a) + 1)) with (length a + 1)%nat by lia.
  rewrite Nat2Z.id. f_equal.
  rewrite firstn_app, Nat.sub_diag, firstn_all. cbn [firstn].
  rewrite app_nil_r. f_equal.
  rewrite skipn_app, skipn_all2 by lia.
  replace (length a + 1 - length a)%nat with 1%nat by lia.
  reflexivity.
Qed.

(** A slice splits around each of its indices. *)
Lemma slice_split s i :
  0 <= i < len s ->
  exists a x r, s = a ++ x :: r /\ len a = i.
Proof.
  unfold len. intros Hi.
  destruct (nth_error s (Z.to_nat i)) as [x|] eqn:E.
  - apply nth_error_split in E as (a & r & -> & Hl).
    exists a, x, r. split; [reflexivity | lia].
  - apply nth_error_None in E. lia.
Qed.

Lemma slice_set_len s i x s' :
  slice_set s i x = Some s' -> len s' = len s.
Proof.
  unfold slice_set.
  destruct ((0 <=? i) && (i <? len s)) eqn:E; [|discriminate].
  apply andb_true_iff in E as [H H0].
  apply Z.leb_le in H. apply Z.ltb_lt in H0.
  intros E. injection E as E. rewrite <- E.
  unfold len in *. f_equal.
  rewrite length_app, length_firstn, length_cons, length_skipn. lia.
Qed.

Lemma lastn_snoc k s x : lastn (S k) (s ++ [x]) = lastn k s ++ [x].
Proof.
  unfold lastn. rewrite length_app. cbn [length].
  replace (length s + 1 - S k)%nat with (length s - k)%nat by lia.
  rewrite skipn_app.
  replace (length s - k - length s)%nat with 0%nat by lia.
  reflexivity.
Qed.

Lemma lastn_cons k x s :
  (k <= length s)%nat -> lastn k (x :: s) = lastn k s.
Proof.
  unfold lastn. intros Hk. cbn [length].
  replace (S (length s) - k)%nat with (S (length s - k)) by lia.
  reflexivity.
Qed.

Lemma lastn_length k s : length (lastn k s) = Nat.min k (length s).
Proof. unfold lastn. rewrite length_skipn. lia. Qed.

Lemma lastn_all k s : (length s <= k)%nat -> lastn k s = s.
Proof.
  unfold lastn. intros Hk.
  replace (length s - k)%nat with 0%nat by lia. reflexivity.
Qed.

Lemma lastn_app k a r :
  (k <= length r)%nat -> lastn k (a ++ r) = lastn k r.
Proof.
  unfold lastn. intros Hk. rewrite length_app, skipn_app.
  rewrite skipn_all2 by lia.
  replace (length a + length r - k - length a)%nat
    with (length r - k)%nat by lia.
  reflexivity.
Qed.

Lemma lastn_lastn k m s :
  (k <= m)%nat -> lastn k (lastn m s) = lastn k s.
Proof.
  intros Hk. unfold lastn at 2.
  destruct (Nat.le_gt_cases k (length (skipn (length s - m) s))) as [H|H].
  - rewrite <- (lastn_app k (firstn (length s - m) s)) by assumption.
    rewrite firstn_skipn. reflexivity.
  - rewrite length_skipn in H.
    replace (length s - m)%nat with 0%nat by lia.
    reflexivity.
Qed.
End SliceFacts.

(** ** The ring-buffer tap: loops *)

Section TapFacts.
Implicit Types (buf out a m b : list Frame) (t : visualTap).

Lemma skipn_app_exact {A} (a r : list A) : skipn (length a) (a ++ r) = r.
Proof.
  rewrite skipn_app, skipn_all, Nat.sub_diag. reflexivity.
Qed.

Lemma firstn_app_exact {A} (a r : list A) : firstn (length a) (a ++ r) = a.
Proof.
  rewrite firstn_app, firstn_all, Nat.sub_diag. cbn [firstn].
  apply app_nil_r.
Qed.

Lemma skipn_past_cons {A} (a r : list A) x :
  skipn (length a + 1) (a ++ x :: r) = r.
Proof.
  replace (a ++ x :: r) with ((a ++ [x]) ++ r)
    by (rewrite <- app_assoc; reflexivity).
  replace (length a + 1)%nat with (length (a ++ [x]))
    by (rewrite length_app; reflexivity).
  apply skipn_app_exact.
Qed.

Lemma firstn_past_cons {A} (a r : list A) x :
  firstn (length a + 1) (a ++ x :: r) = a ++ [x].
Proof.
  replace (a ++ x :: r) with ((a ++ [x]) ++ r)
    by (rewrite <- app_assoc; reflexivity).
  replace (length a + 1)%nat with (length (a ++ [x]))
    by (rewrite length_app; reflexivity).
  apply firstn_app_exact.
Qed.

Lemma ring_until_length buf idx : length (ring_until buf idx) = length buf.
Proof.
  unfold ring_until. rewrite length_app, length_skipn, length_firstn. lia.
Qed.

(** One iteration of the walk takes the last frame of the view and
    rotates the view by one. *)
Lemma ring_until_step buf idx :
  0 <= idx < len buf ->
  exists x w,
    slice_get buf idx = Some x
    /\ ring_until buf idx = w ++ [x]
    /\ ring_until buf (previous_index buf idx) = x :: w
    /\ 0 <= previous_index buf idx < len buf.
Proof.
  intros Hi.
  destruct (slice_split buf idx Hi) as (a & x & r & -> & Hl). subst idx.
  exists x, (r ++ a). split; [apply slice_get_app|].
  unfold ring_until, previous_index.
  replace (Z.to_nat (len a + 1)) with (length a + 1)%nat
    by (unfold len; lia).
  rewrite skipn_past_cons, firstn_past_cons.
  split; [apply app_assoc|].
  destruct (Z.ltb_spec (len a - 1) 0) as [Hz|Hz].
  - assert (a = []) as ->.
    { destruct a; [reflexivity|]. unfold len in Hz. cbn [length] in Hz. lia. }
    cbn [app].
    replace (Z.to_nat (len (x :: r) - 1 + 1)) with (length (x :: r))
      by (unfold len; lia).
    rewrite skipn_all, firstn_all, app_nil_r. cbn [app].
    split; [reflexivity|]. unfold len. cbn [length]. lia.
  - replace (Z.to_nat (len a - 1 + 1)) with (length a)
      by (unfold len; lia).
    rewrite skipn_app_exact, firstn_app_exact.
    split; [reflexivity|]. rewrite len_app. unfold len in *.
    cbn [length]. lia.
Qed.

Lemma walk_back_spec cnt : forall buf idx out,
  0 <= idx < len buf ->
  (cnt <= length buf)%nat ->
  walk_back cnt buf idx out
  = Some (out ++ rev (lastn cnt (ring_until buf idx))).
Proof.
  induction cnt as [|c IH]; intros buf idx out Hi Hc.
  - cbn [walk_back]. unfold lastn. rewrite Nat.sub_0_r, skipn_all.
    cbn [rev]. rewrite app_nil_r. reflexivity.
  - cbn [walk_back].
    destruct (ring_until_step buf idx Hi) as (x & w & Hg & Hv & Hp & Hr).
    rewrite Hg. change (if idx - 1 <? 0 then len buf - 1 else idx - 1)
      with (previous_index buf idx).
    rewrite IH by (assumption || lia).
    pose proof (ring_until_length buf idx) as Hlen.
    rewrite Hv, length_app in Hlen. cbn [length] in Hlen.
    rewrite Hp, Hv, lastn_cons, lastn_snoc by lia.
    rewrite rev_app_distr. cbn [rev app].
    rewrite <- app_assoc. reflexivity.
Qed.

(** The swap loop reverses the part of the slice between its cursors. *)
Lemma reverse_loop_spec fuel : forall m a b,
  (length m <= 2 * fuel)%nat ->
  reverse_loop fuel (len a) (len a + len m - 1) (a ++ m ++ b)
  = Some (a ++ rev m ++ b).
Proof.
  induction fuel as [|k IH]; intros m a b Hm.
  - destruct m; [reflexivity | cbn [length] in Hm; lia].
  - cbn [reverse_loop].
    destruct m as [|x m].
    { replace (len a <? len a + len (@nil Frame) - 1) with false; [reflexivity|].
      symmetry. apply Z.ltb_ge. unfold len. cbn [length]. lia. }
    destruct (exists_last (l := x :: m) ltac:(discriminate)) as (m0 & y & E).
    destruct m0 as [|x0 m'].
    { cbn [app] in E. injection E as -> ->.
      replace (len a <? len a + len [y] - 1) with false; [reflexivity|].
      symmetry. apply Z.ltb_ge. unfold len. cbn [length]. lia. }
    cbn [app] in E. injection E as <- ->.
    assert (len a + len (x :: m' ++ [y]) - 1 = len (a ++ x :: m')) as Ej.
    { rewrite !len_app. unfold len. cbn [length]. rewrite length_app.
      cbn [length]. lia. }
    rewrite Ej.
    replace (len a <? len (a ++ x :: m')) with true
      by (symmetry; apply Z.ltb_lt; rewrite len_app; unfold len;
          cbn [length]; lia).
    cbn [app]. rewrite slice_get_app.
    replace (a ++ x :: (m' ++ [y]) ++ b) with ((a ++ x :: m') ++ y :: b)
      by (rewrite <- !app_assoc; reflexivity).
    rewrite slice_get_app.
    replace ((a ++ x :: m') ++ y :: b) with (a ++ x :: (m' ++ y :: b))
      by (rewrite <- !app_assoc; reflexivity).
    rewrite slice_set_app.
    replace (a ++ y :: m' ++ y :: b) with ((a ++ y :: m') ++ y :: b)
      by (rewrite <- !app_assoc; reflexivity).
    replace (len (a ++ x :: m')) with (len (a ++ y :: m'))
      by (rewrite !len_app; reflexivity).
    rewrite slice_set_app.
    replace ((a ++ y :: m') ++ x :: b) with ((a ++ [y]) ++ m' ++ (x :: b))
      by (rewrite <- !app_assoc; reflexivity).
    replace (len a + 1) with (len (a ++ [y]))
      by (rewrite len_app; reflexivity).
    replace (len (a ++ y :: m') - 1) with (len (a ++ [y]) + len m' - 1)
      by (rewrite !len_app; unfold len; cbn [length]; lia).
    rewrite IH.
    + cbn [rev]. rewrite rev_app_distr. cbn [rev app].
      rewrite <- !app_assoc. reflexivity.
    + cbn [length] in Hm. rewrite length_app in Hm. cbn [length] in Hm. lia.
Qed.

Lemma reverse_loop_rev out :
  reverse_loop (length out) 0 (len out - 1) out = Some (rev out).
Proof.
  pose proof (reverse_loop_spec (length out) out [] [] ltac:(lia)) as H.
  rewrite !app_nil_r in H. exact H.
Qed.
End TapFacts.

(** ** The ring-buffer tap: operations *)

Section TapOperations.
Implicit Types (t : visualTap) (fs : list Frame).

Lemma chronological_length t :
  length (chronological t) = length (buffer t).
Proof.
  unfold chronological.
  rewrite length_app, length_skipn, length_firstn. lia.
Qed.

(** [snapshot] reads the end of the chronological view. *)
Lemma snapshot_chronological t n :
  tap_ok t -> 0 <= n ->
  snapshot t n
  = Some (lastn (Z.to_nat (Z.min n (len (buffer t)))) (chronological t)).
Proof.
  intros Hok Hn. unfold snapshot.
  assert ((if n >? len (buffer t) then len (buffer t) else n)
          = Z.min n (len (buffer t))) as ->.
  { destruct (Z.gtb_spec n (len (buffer t))); lia. }
  pose proof (len_nonneg (buffer t)) as Hl.
  destruct (Z.ltb_spec (Z.min n (len (buffer t))) 0) as [?|_]; [lia|].
  destruct Hok as [Hi | [Hb Hi]].
  - change (if nextIndex t - 1 <? 0 then len (buffer t) - 1
            else nextIndex t - 1)
      with (previous_index (buffer t) (nextIndex t)).
    assert (ring_until (buffer t) (previous_index (buffer t) (nextIndex t))
            = chronological t) as Hv.
    { unfold ring_until, previous_index, chronological.
      destruct (Z.ltb_spec (nextIndex t - 1) 0).
      - replace (Z.to_nat (len (buffer t) - 1 + 1)) with (length (buffer t))
          by (unfold len; lia).
        replace (Z.to_nat (nextIndex t)) with 0%nat by lia.
        rewrite skipn_all, firstn_all. cbn [skipn firstn app].
        rewrite app_nil_r. reflexivity.
      - replace (nextIndex t - 1 + 1) with (nextIndex t) by lia.
        reflexivity. }
    destruct (ring_until_step (buffer t) (nextIndex t) Hi)
      as (_ & _ & _ & _ & _ & Hp).
    rewrite walk_back_spec by (assumption || unfold len in *; lia).
    cbn [app]. rewrite reverse_loop_rev, rev_involutive, Hv. reflexivity.
  - unfold chronological. rewrite Hb, Hi.
    replace (Z.to_nat (Z.min n (len (@nil Frame)))) with 0%nat
      by (unfold len; cbn [length]; lia).
    reflexivity.
Qed.

(** Recording frames shifts them into the chronological view. *)
Lemma record_spec fs : forall t,
  0 <= nextIndex t < len (buffer t) ->
  exists t',
    record fs t = Some t'
    /\ 0 <= nextIndex t' < len (buffer t')
    /\ length (buffer t') = length (buffer t)
    /\ chronological t'
       = lastn (length (buffer t)) (chronological t ++ fs).
Proof.
  induction fs as [|f fs IH]; intros t Hi.
  - exists t. repeat split; try tauto.
    rewrite app_nil_r, lastn_all; [reflexivity|].
    rewrite chronological_length. lia.
  - cbn [record].
    destruct (slice_split (buffer t) (nextIndex t) Hi)
      as (a & x & r & Hb & Hl).
    assert (slice_set (buffer t) (nextIndex t) f = Some (a ++ f :: r))
      as -> by (rewrite <- Hl, Hb; apply slice_set_app).
    set (ni := if nextIndex t + 1 >=? len (a ++ f :: r) then 0
               else nextIndex t + 1).
    assert (len (a ++ f :: r) = len (buffer t)) as Hlen
      by (rewrite Hb, !len_app; reflexivity).
    assert (chronological t = x :: (r ++ a)) as Hc.
    { unfold chronological. rewrite <- Hl, Hb.
      unfold len. rewrite Nat2Z.id.
      rewrite skipn_app_exact, firstn_app_exact. reflexivity. }
    assert (0 <= ni < len (a ++ f :: r)) as Hni.
    { subst ni.
      destruct (Z.geb_spec (nextIndex t + 1) (len (a ++ f :: r))); lia. }
    assert (chronological {| buffer := a ++ f :: r; nextIndex := ni |}
            = (r ++ a) ++ [f]) as Hc'.
    { unfold chronological. cbn [buffer nextIndex]. subst ni.
      destruct (Z.geb_spec (nextIndex t + 1) (len (a ++ f :: r))) as [Hw|Hw].
      - assert (r = []) as ->.
        { destruct r; [reflexivity|]. rewrite len_app in Hw.
          unfold len in *. cbn [length] in Hw. lia. }
        cbn [Z.to_nat skipn firstn app]. rewrite app_nil_r. reflexivity.
      - replace (Z.to_nat (nextIndex t + 1)) with (length a + 1)%nat
          by (unfold len in *; lia).
        rewrite skipn_past_cons, firstn_past_cons.
        apply app_assoc. }
    destruct (IH {| buffer := a ++ f :: r; nextIndex := ni |} Hni)
      as (t' & Hr & Hi' & Hb' & Hch).
    cbn [buffer nextIndex] in *.
    assert (length (a ++ f :: r) = length (buffer t)) as Hlen'
      by (unfold len in Hlen; lia).
    exists t'. repeat split; try tauto; try lia.
    rewrite Hch, Hc', Hc, Hlen'. cbn [app].
    rewrite lastn_cons.
    + rewrite <- !app_assoc. reflexivity.
    + rewrite Hb, !length_app. cbn [length]. lia.
Qed.

Lemma record_app fs1 : forall fs2 t,
  record (fs1 ++ fs2) t = (t' <- record fs1 t ;; record fs2 t').
Proof.
  induction fs1 as [|f fs1 IH]; intros fs2 t; [reflexivity|].
  cbn [app record].
  destruct (slice_set (buffer t) (nextIndex t) f); [apply IH | reflexivity].
Qed.

Lemma Stream_record t fs ok :
  Stream t fs ok = (t' <- record fs t ;; Some (t', (len fs, ok))).
Proof.
  unfold Stream. destruct fs as [|f fs]; [reflexivity|].
  replace (len (f :: fs) >? 0) with true; [reflexivity|].
  symmetry. apply Z.gtb_lt. unfold len. cbn [length]. lia.
Qed.

Lemma Streams_record batches : forall t,
  Streams t batches = record (pushed batches) t.
Proof.
  induction batches as [|[fs ok] rest IH]; intros t; [reflexivity|].
  cbn [Streams]. unfold pushed. cbn [map concat fst].
  rewrite record_app, Stream_record.
  destruct (record fs t); [apply IH | reflexivity].
Qed.

(** With an empty ring, the first recorded frame panics. *)
Lemma record_empty_ring fs t t' :
  buffer t = [] -> record fs t = Some t' -> fs = [] /\ t' = t.
Proof.
  intros Hb. destruct fs as [|f fs].
  - cbn [record]. intros [= <-]. tauto.
  - cbn [record]. unfold slice_set. rewrite Hb.
    destruct ((0 <=? nextIndex t) && (nextIndex t <? len (@nil Frame)))
      eqn:E; [|discriminate].
    apply andb_true_iff in E as [E1 E2].
    apply Z.leb_le in E1. apply Z.ltb_lt in E2.
    unfold len in E2. cbn [length] in E2. lia.
Qed.

(** Every tap reached from [newVisualTap] by [Stream] calls holds, in
    chronological order, the end of its zero filling followed by the
    frames pushed. *)
Lemma Streams_from_new cap batches t0 t :
  newVisualTap cap = Some t0 ->
  Streams t0 batches = Some t ->
  tap_ok t /\ len (buffer t) = cap
  /\ chronological t
     = lastn (Z.to_nat cap)
         (repeat zeroFrame (Z.to_nat cap) ++ pushed batches).
Proof.
  unfold newVisualTap, make.
  destruct (Z.ltb_spec cap 0) as [|Hcap]; [discriminate|].
  intros [= <-]. rewrite Streams_record.
  destruct (Z.eq_dec cap 0) as [->|Hnz].
  - intros Hr. apply record_empty_ring in Hr as [-> ->]; [|reflexivity].
    cbn. split; [right|]; tauto.
  - intros Hr.
    destruct (record_spec (pushed batches)
                {| buffer := repeat zeroFrame (Z.to_nat cap);
                   nextIndex := 0 |})
      as (t' & Hr' & Hi & Hb & Hc).
    { cbn [buffer nextIndex]. unfold len. rewrite repeat_length. lia. }
    rewrite Hr in Hr'. injection Hr' as <-.
    cbn [buffer nextIndex] in *. rewrite repeat_length in *.
    split; [left; assumption|].
    split; [unfold len; lia|].
    rewrite Hc. unfold chronological. cbn [buffer nextIndex Z.to_nat].
    cbn [skipn firstn]. rewrite app_nil_r. reflexivity.
Qed.

(** [Stream] calls on a ring of positive size never panic. *)
Lemma Streams_total cap batches :
  0 < cap ->
  exists t0 t, newVisualTap cap = Some t0 /\ Streams t0 batches = Some t.
Proof.
  intros Hcap. unfold newVisualTap, make.
  destruct (Z.ltb_spec cap 0); [lia|].
  eexists. rewrite Streams_record.
  destruct (record_spec (pushed batches)
              {| buffer := repeat zeroFrame (Z.to_nat cap);
                 nextIndex := 0 |})
    as (t' & Hr' & _).
  { cbn [buffer nextIndex]. unfold len. rewrite repeat_length. lia. }
  exists t'. split; [reflexivity | exact Hr'].
Qed.

(** What [snapshot] returns in every reachable tap. *)
Lemma snapshot_from_new cap batches t0 t n :
  newVisualTap cap = Some t0 ->
  Streams t0 batches = Some t ->
  0 <= n ->
  snapshot t n
  = Some (lastn (Z.to_nat (Z.min n cap))
            (repeat zeroFrame (Z.to_nat cap) ++ pushed batches)).
Proof.
  intros H0 Hs Hn.
  destruct (Streams_from_new cap batches t0 t H0 Hs) as (Hok & Hl & Hc).
  rewrite snapshot_chronological by assumption.
  rewrite Hl, Hc, lastn_lastn by lia. reflexivity.
Qed.
End TapOperations.

(** ** The ring-buffer tap: results *)

Lemma lastn_repeat {A} (x : A) k m :
  lastn k (repeat x m) = repeat x (Nat.min k m).
Proof.
  unfold lastn. rewrite repeat_length.
  replace m with ((m - k) + Nat.min k m)%nat at 2 by lia.
  rewrite repeat_app.
  rewrite <- (repeat_length x (m - k)) at 1.
  apply skipn_app_exact.
Qed.

(** C1. For every run of [Stream] calls on a fresh tap of positive capacity
    whose frames number at least [min(n, capacity)], [snapshot(n)] returns
    exactly the last [min(n, capacity)] frames pushed, oldest first; and with
    capacity 4, pushing six frames one at a time makes [snapshot(4)] the
    last four. *)
Theorem snapshot_last_frames :
  (forall cap n batches,
      0 < cap -> 0 <= n -> Z.min n cap <= len (pushed batches) ->
      exists t0 t,
        newVisualTap cap = Some t0
        /\ Streams t0 batches = Some t
        /\ snapshot t n
           = Some (lastn (Z.to_nat (Z.min n cap)) (pushed batches)))
  /\ (forall f1 f2 f3 f4 f5 f6 : Frame,
        exists t0 t,
          newVisualTap 4 = Some t0
          /\ Streams t0 [([f1], true); ([f2], true); ([f3], true);
                         ([f4], true); ([f5], true); ([f6], true)] = Some t
          /\ snapshot t 4 = Some [f3; f4; f5; f6]).
Proof.
  split.
  - intros cap n batches Hcap Hn HL.
    destruct (Streams_total cap batches Hcap) as (t0 & t & H0 & Hs).
    exists t0, t. split; [assumption|]. split; [assumption|].
    rewrite (snapshot_from_new cap batches t0 t n H0 Hs Hn).
    f_equal. apply lastn_app. unfold len in HL. lia.
  - intros f1 f2 f3 f4 f5 f6.
    eexists. eexists. split; [reflexivity|]. split; reflexivity.
Qed.

Lemma snapshot_last_frames_witness :
  exists t0 t,
    newVisualTap 2 = Some t0
    /\ Streams t0 [([(1, 1); (2, 2)], true); ([(3, 3)], false)]%R = Some t
    /\ snapshot t 5 = Some [(2, 2); (3, 3)]%R.
Proof.
  exact (proj1 snapshot_last_frames 2 5
           [([(1, 1); (2, 2)], true); ([(3, 3)], false)]%R
           ltac:(lia) ltac:(lia) ltac:(vm_compute; discriminate)).
Defined.

(** C4, as the code has it. On a tap into which nothing was pushed,
    [snapshot(n)] returns [min(n, capacity)] zero frames; it is empty only
    when [n] or the capacity is 0. *)
Theorem fresh_snapshot_zero_frames :
  forall cap n,
    0 <= cap -> 0 <= n ->
    exists t,
      newVisualTap cap = Some t
      /\ snapshot t n = Some (repeat zeroFrame (Z.to_nat (Z.min n cap))).
Proof.
  intros cap n Hcap Hn.
  assert (exists t, newVisualTap cap = Some t) as [t Ht].
  { unfold newVisualTap, make. destruct (Z.ltb_spec cap 0); [lia|].
    eexists. reflexivity. }
  exists t. split; [assumption|].
  rewrite (snapshot_from_new cap [] t t n Ht eq_refl Hn).
  unfold pushed. cbn [map concat]. rewrite app_nil_r, lastn_repeat.
  do 2 f_equal. lia.
Qed.

Lemma fresh_snapshot_zero_frames_witness :
  exists t,
    newVisualTap 8192 = Some t
    /\ snapshot t 2048 = Some (repeat zeroFrame 2048).
Proof.
  exact (fresh_snapshot_zero_frames 8192 2048 ltac:(lia) ltac:(lia)).
Defined.

(** C4, as stated, fails: a fresh tap of capacity 4 answers [snapshot(4)]
    with four zero frames, not with the empty sequence. *)
Lemma fresh_snapshot_not_empty :
  exists t,
    newVisualTap 4 = Some t
    /\ snapshot t 4 = Some [zeroFrame; zeroFrame; zeroFrame; zeroFrame]
    /\ snapshot t 4 <> Some [].
Proof.
  eexists. split; [reflexivity|]. split; [reflexivity | discriminate].
Qed.

(** C10. In every tap reached from [newVisualTap] by [Stream] calls, and for
    every [n >= 0], [snapshot(n)] returns exactly [min(n, capacity)] frames,
    and the leading ones that no push has written are the zero frame. *)
Theorem snapshot_length_zero_fill :
  forall cap batches t0 t n,
    newVisualTap cap = Some t0 ->
    Streams t0 batches = Some t ->
    0 <= n ->
    exists out,
      snapshot t n = Some out
      /\ len out = Z.min n cap
      /\ forall j, 0 <= j < Z.min n cap - len (pushed batches) ->
                   slice_get out j = Some zeroFrame.
Proof.
  intros cap batches t0 t n H0 Hs Hn.
  assert (0 <= cap) as Hcap.
  { unfold newVisualTap, make in H0.
    destruct (Z.ltb_spec cap 0); [discriminate | assumption]. }
  eexists. split; [apply (snapshot_from_new cap batches t0 t n H0 Hs Hn)|].
  split.
  - unfold len. rewrite lastn_length, length_app, repeat_length. lia.
  - intros j Hj. unfold slice_get.
    destruct (Z.ltb_spec j 0); [lia|].
    unfold lastn. rewrite nth_error_skipn, length_app, repeat_length.
    unfold len in Hj.
    rewrite nth_error_app1 by (rewrite repeat_length; lia).
    apply nth_error_repeat. lia.
Qed.

Lemma snapshot_length_zero_fill_witness :
  exists out,
    (t0 <- newVisualTap 4 ;;
     t <- Streams t0 [([(1, 1)], true)]%R ;;
     snapshot t 3) = Some out
    /\ len out = 3
    /\ forall j, 0 <= j < 2 -> slice_get out j = Some zeroFrame.
Proof.
  destruct (snapshot_length_zero_fill 4 [([(1, 1)], true)]%R
              {| buffer := repeat zeroFrame 4; nextIndex := 0 |}
              {| buffer := (1, 1)%R :: repeat zeroFrame 3; nextIndex := 1 |}
              3 eq_refl eq_refl ltac:(lia))
    as (out & Hs & Hl & Hz).
  exists out. split; [exact Hs|]. split; [exact Hl | exact Hz].
Defined.

(** ** The band analyzer: arithmetic *)

Section Arithmetic.
Local Open Scope R_scope.

(** [int(x)] of a non-negative float is its floor. *)
Lemma trunc_floor (x : R) (z : Z) :
  0 <= x -> IZR z <= x < IZR z + 1 -> trunc x = z.
Proof.
  intros Hx Hz. unfold trunc.
  destruct (Rle_dec 0 x) as [_|Hn]; [|contradiction].
  symmetry. apply Int_part_spec. lra.
Qed.

Lemma trunc_IZR (z : Z) : (0 <= z)%Z -> trunc (IZR z) = z.
Proof.
  intros Hz. apply trunc_floor; [apply IZR_le; assumption | lra].
Qed.

(** The quotient of non-negative integers, computed in floats and
    converted back, is the integer quotient. *)
Lemma trunc_div (n d : Z) :
  (0 <= n)%Z -> (0 < d)%Z -> trunc (IZR n / IZR d) = (n / d)%Z.
Proof.
  intros Hn Hd.
  assert (0 < IZR d) as Hd' by (apply IZR_lt; assumption).
  pose proof (Z.div_mod n d ltac:(lia)) as E.
  pose proof (Z.mod_pos_bound n d Hd) as Hm.
  assert (IZR n = IZR d * IZR (n / d) + IZR (n mod d)) as E'.
  { rewrite <- mult_IZR, <- plus_IZR. f_equal. exact E. }
  assert (0 <= IZR (n mod d) < IZR d) as [Hm1 Hm2].
  { split; [apply IZR_le | apply IZR_lt]; lia. }
  assert (IZR n / IZR d = IZR (n / d) + IZR (n mod d) / IZR d) as E2.
  { rewrite E'. field. lra. }
  assert (0 <= IZR (n mod d) / IZR d < 1) as [Hq1 Hq2].
  { split.
    - apply Rmult_le_pos; [assumption|].
      apply Rlt_le, Rinv_0_lt_compat. assumption.
    - apply (Rmult_lt_reg_r (IZR d)); [assumption|].
      unfold Rdiv. rewrite Rmult_assoc, Rinv_l by lra. lra. }
  assert (0 <= IZR (n / d)) as Hq0.
  { apply IZR_le. apply Z.div_pos; lia. }
  apply trunc_floor; lra.
Qed.

Lemma segmentSize_floor (samples : list Frame) :
  trunc (Rmax 1 (IZR (len samples) / IZR nBands))
  = segmentSizeOf (len samples).
Proof.
  unfold segmentSizeOf.
  pose proof (len_nonneg samples) as Hn.
  assert (0 < nBands)%Z as Hb by reflexivity.
  pose proof (trunc_div (len samples) nBands Hn Hb) as Ht.
  assert (0 < IZR nBands) as Hb' by (apply IZR_lt; assumption).
  assert (0 <= IZR (len samples) / IZR nBands) as Hq.
  { apply Rmult_le_pos; [apply IZR_le; assumption|].
    apply Rlt_le, Rinv_0_lt_compat. assumption. }
  unfold Rmax. destruct (Rle_dec 1 (IZR (len samples) / IZR nBands)) as [H1|H1].
  - rewrite Ht.
    assert (1 <= len samples / nBands)%Z; [|lia].
    rewrite <- Ht. unfold trunc.
    destruct (Rle_dec 0 (IZR (len samples) / IZR nBands)); [|contradiction].
    destruct (base_Int_part (IZR (len samples) / IZR nBands)) as [Hi1 Hi2].
    apply Z.lt_pred_le. apply lt_IZR. cbn [Z.pred]. 
    replace (IZR (Z.pred 1)) with 0 by reflexivity. lra.
  - change 1 with (IZR 1). rewrite trunc_IZR by lia.
    assert (len samples / nBands < 1)%Z; [|lia].
    rewrite <- Ht. unfold trunc.
    destruct (Rle_dec 0 (IZR (len samples) / IZR nBands)); [|contradiction].
    destruct (base_Int_part (IZR (len samples) / IZR nBands)) as [Hi1 Hi2].
    apply lt_IZR. lra.
Qed.

Lemma math_Pow_zero y : math_Pow 0 y = 0.
Proof.
  unfold math_Pow. destruct (Req_dec_T 0 0) as [_|H]; [reflexivity|].
  exfalso. apply H. reflexivity.
Qed.

Lemma math_Pow_unit x y :
  0 <= y -> 0 <= x <= 1 -> 0 <= math_Pow x y <= 1.
Proof.
  intros Hy [Hx0 Hx1]. unfold math_Pow.
  destruct (Req_dec_T x 0) as [_|Hnz]; [lra|].
  split.
  - apply Rlt_le. unfold Rpower. apply exp_pos.
  - assert (Rpower 1 y = 1) as <-.
    { unfold Rpower. rewrite ln_1, Rmult_0_r. apply exp_0. }
    apply Rle_Rpower_l; lra.
Qed.

Lemma smooth_unit p m :
  unit_interval p -> unit_interval m -> unit_interval (smooth p m).
Proof.
  unfold unit_interval, smooth, smoothingFactor. intros Hp Hm. lra.
Qed.

(** [clamp01], which the update does not call, would map into [0, 1]. *)
Lemma clamp01_unit v : unit_interval (clamp01 v).
Proof.
  unfold unit_interval, clamp01.
  destruct (Rlt_dec v 0); [lra|]. destruct (Rlt_dec 1 v); lra.
Qed.

Lemma smooth_silence p : smooth p 0 = smoothingFactor * p.
Proof. unfold smooth, float64. ring. Qed.
End Arithmetic.

(** ** The band analyzer: loops *)

Section AnalyzerLoops.
Implicit Types (samples seg : list Frame) (ad : list float64).

Lemma firstn_min {A} n (l : list A) :
  firstn n l = firstn (Nat.min n (length l)) l.
Proof.
  destruct (Nat.le_gt_cases n (length l)).
  - rewrite Nat.min_l by assumption. reflexivity.
  - rewrite Nat.min_r, firstn_all, firstn_all2 by lia. reflexivity.
Qed.

Lemma nth_update {A} (a r : list A) x y d j :
  nth j (a ++ y :: r) d
  = if (j =? length a)%nat then y else nth j (a ++ x :: r) d.
Proof.
  destruct (Nat.eqb_spec j (length a)) as [->|Hne].
  - apply nth_middle.
  - destruct (Nat.lt_ge_cases j (length a)).
    + rewrite !app_nth1 by assumption. reflexivity.
    + rewrite !app_nth2 by assumption.
      destruct (j - length a)%nat eqn:E; [lia | reflexivity].
Qed.

(** The inner loop sums the squared mono mixes of the frames it visits. *)
Lemma sumSquaresLoop_spec cnt : forall samples s acc,
  0 <= s -> s + Z.of_nat cnt <= len samples ->
  sumSquaresLoop cnt samples s acc
  = Some (fold_left (fun acc f => (acc + mono f * mono f)%R)
            (firstn cnt (skipn (Z.to_nat s) samples)) acc).
Proof.
  induction cnt as [|c IH]; intros samples s acc Hs Hc; [reflexivity|].
  cbn [sumSquaresLoop].
  destruct (slice_split samples s ltac:(lia)) as (a & x & r & -> & Hl).
  subst s. rewrite slice_get_app.
  rewrite IH by (rewrite ?len_app in *; unfold len in *;
                 cbn [length] in *; lia).
  replace (Z.to_nat (len a + 1)) with (length a + 1)%nat
    by (unfold len; lia).
  replace (Z.to_nat (len a)) with (length a) by (unfold len; lia).
  rewrite skipn_past_cons, skipn_app_exact. reflexivity.
Qed.

Lemma segment_length samples start size :
  0 <= start -> 0 <= size ->
  len (segment samples start size)
  = Z.max 0 (Z.min size (len samples - start)).
Proof.
  intros Hs Hz. unfold segment, len.
  rewrite length_firstn, length_skipn. lia.
Qed.

(** What one pass of the band loop leaves in each band: the bands it
    reaches are smoothed against their segment, the others are kept. *)
Lemma bandLoop_spec samples size cnt : forall i ad,
  1 <= size -> 0 <= i -> i + Z.of_nat cnt <= len ad ->
  exists ad',
    bandLoop cnt i samples size ad = Some ad'
    /\ length ad' = length ad
    /\ forall j : nat,
         nth j ad' 0%R
         = if (i <=? Z.of_nat j) && (Z.of_nat j <? i + Z.of_nat cnt)
           then bandAfter size samples ad (Z.of_nat j)
           else nth j ad 0%R.
Proof.
  induction cnt as [|c IH]; intros i ad Hsize Hi Hc.
  - exists ad. split; [reflexivity|]. split; [reflexivity|].
    intros j.
    destruct (Z.leb_spec i (Z.of_nat j));
      destruct (Z.ltb_spec (Z.of_nat j) (i + Z.of_nat 0));
      cbn [andb]; reflexivity || lia.
  - cbn [bandLoop].
    destruct (Z.geb_spec (i * size) (len samples)) as [Hbreak|Hgo].
    + exists ad. split; [reflexivity|]. split; [reflexivity|].
      intros j.
      destruct ((i <=? Z.of_nat j) && (Z.of_nat j <? i + Z.of_nat (S c)))
        eqn:E; [|reflexivity].
      apply andb_true_iff in E as [E1 _]. apply Z.leb_le in E1.
      unfold bandAfter. rewrite Nat2Z.id.
      destruct (Z.ltb_spec (Z.of_nat j * size) (len samples));
        [nia | reflexivity].
    + set (end_ := if i * size + size >? len samples then len samples
                   else i * size + size).
      assert (end_ - i * size = Z.min size (len samples - i * size)) as He.
      { subst end_. destruct (Z.gtb_spec (i * size + size) (len samples)); lia. }
      rewrite sumSquaresLoop_spec by nia.
      assert (firstn (Z.to_nat (end_ - i * size))
                (skipn (Z.to_nat (i * size)) samples)
              = segment samples (i * size) size) as Hseg.
      { unfold segment.
        rewrite (firstn_min (Z.to_nat size)), length_skipn.
        f_equal. unfold len in *. lia. }
      rewrite Hseg.
      assert (end_ - i * size = len (segment samples (i * size) size)) as ->.
      { rewrite segment_length by nia. lia. }
      fold (sumSquares (segment samples (i * size) size)).
      fold (rms (segment samples (i * size) size)).
      fold (magnitude (segment samples (i * size) size)).
      destruct (slice_split ad i ltac:(lia)) as (a & p & r & -> & Hl).
      subst i. rewrite slice_get_app, slice_set_app.
      fold (smooth p (magnitude (segment samples (len a * size) size))).
      set (new := smooth p (magnitude (segment samples (len a * size) size))).
      destruct (IH (len a + 1) (a ++ new :: r) Hsize ltac:(lia))
        as (ad' & Hrun & Hlen & Hnth).
      { rewrite len_app in *. unfold len in *. cbn [length] in *. lia. }
      exists ad'. split; [exact Hrun|].
      split; [rewrite Hlen, !length_app; reflexivity|].
      intros j. rewrite Hnth.
      assert (forall k : nat, k <> length a ->
                bandAfter size samples (a ++ new :: r) (Z.of_nat k)
                = bandAfter size samples (a ++ p :: r) (Z.of_nat k)) as Hsame.
      { intros k Hk. unfold bandAfter. rewrite Nat2Z.id.
        rewrite (nth_update a r p new).
        destruct (Nat.eqb_spec k (length a)); [contradiction | reflexivity]. }
      rewrite (nth_update a r p new).
      destruct (Nat.eqb_spec j (length a)) as [->|Hne].
      * fold (len a).
        destruct (Z.leb_spec (len a + 1) (len a)); [lia|].
        destruct (Z.leb_spec (len a) (len a)); [|lia].
        destruct (Z.ltb_spec (len a) (len a + Z.of_nat (S c))); [|lia].
        cbn [andb]. unfold bandAfter.
        destruct (Z.ltb_spec (len a * size) (len samples)); [|lia].
        unfold len at 1. rewrite Nat2Z.id, nth_middle. reflexivity.
      * rewrite (Hsame j Hne). unfold len.
        destruct (Z.leb_spec (Z.of_nat (length a) + 1) (Z.of_nat j));
          destruct (Z.leb_spec (Z.of_nat (length a)) (Z.of_nat j));
          destruct (Z.ltb_spec (Z.of_nat j)
                      (Z.of_nat (length a) + 1 + Z.of_nat c));
          destruct (Z.ltb_spec (Z.of_nat j)
                      (Z.of_nat (length a) + Z.of_nat (S c)));
          cbn [andb]; reflexivity || lia.
Qed.

Lemma previousBands_length ad : len (previousBands ad) = nBands.
Proof.
  unfold previousBands.
  destruct (Z.eqb_spec (len ad) nBands); [assumption | reflexivity].
Qed.

(** The update never panics, keeps 64 bands, and sets each of them as
    [bandAfter] says for segments of [max(1, N / 64)] frames. *)
Lemma analyze_spec samples ad :
  exists bands,
    analyze samples ad = Some bands
    /\ len bands = nBands
    /\ forall i, 0 <= i < nBands ->
         nth (Z.to_nat i) bands 0%R
         = bandAfter (segmentSizeOf (len samples)) samples
             (previousBands ad) i.
Proof.
  unfold analyze.
  assert ((if len ad =? nBands then Some ad else make 0%R nBands)
          = Some (previousBands ad)) as ->.
  { unfold previousBands. destruct (len ad =? nBands); reflexivity. }
  rewrite segmentSize_floor.
  pose proof (previousBands_length ad) as Hl.
  destruct (bandLoop_spec samples (segmentSizeOf (len samples))
              (Z.to_nat nBands) 0 (previousBands ad))
    as (bands & Hrun & Hlen & Hnth).
  { unfold segmentSizeOf. lia. }
  { lia. }
  { rewrite Hl. reflexivity. }
  exists bands. split; [exact Hrun|].
  split; [unfold len in *; lia|].
  intros i Hi. rewrite Hnth, Z2Nat.id by lia.
  destruct (Z.leb_spec 0 i); [|lia].
  destruct (Z.ltb_spec i (0 + Z.of_nat (Z.to_nat nBands))); [reflexivity|].
  unfold nBands in *. lia.
Qed.
End AnalyzerLoops.

(** ** The band analyzer: magnitudes *)

Section Magnitudes.
Local Open Scope R_scope.
Implicit Types (samples seg : list Frame) (ad : list float64).

Lemma Forall_firstn_keep {A} (P : A -> Prop) n : forall l,
  Forall P l -> Forall P (firstn n l).
Proof.
  induction n as [|n IH]; intros l H; [constructor|].
  destruct H; cbn [firstn]; constructor; auto.
Qed.

Lemma Forall_skipn_keep {A} (P : A -> Prop) n : forall l,
  Forall P l -> Forall P (skipn n l).
Proof.
  induction n as [|n IH]; intros l H; [exact H|].
  destruct H; cbn [skipn]; [constructor | auto].
Qed.

Lemma Forall_segment (P : Frame -> Prop) samples start size :
  Forall P samples -> Forall P (segment samples start size).
Proof.
  intros H. unfold segment.
  apply Forall_firstn_keep, Forall_skipn_keep, H.
Qed.

Lemma mono_square_unit f :
  frame_in_range f -> 0 <= mono f * mono f <= 1.
Proof.
  unfold frame_in_range. intros [H1 H2].
  assert (-1 <= mono f <= 1) as Hm by (unfold mono, float64 in *; lra).
  generalize dependent (mono f). intros m Hm. unfold float64 in *. nra.
Qed.

Lemma fold_squares_bounds seg :
  Forall frame_in_range seg ->
  forall acc : R,
    acc <= fold_left (fun acc f => acc + mono f * mono f) seg acc
        <= acc + INR (length seg).
Proof.
  induction 1 as [|f seg Hf _ IH]; intros acc.
  - cbn [fold_left length INR]. lra.
  - cbn [fold_left]. rewrite length_cons, S_INR.
    specialize (IH (acc + mono f * mono f)).
    pose proof (mono_square_unit f Hf). lra.
Qed.

Lemma rms_unit seg : Forall frame_in_range seg -> 0 <= rms seg <= 1.
Proof.
  intros H. unfold rms. split; [apply sqrt_pos|].
  rewrite <- sqrt_1. apply sqrt_le_1_alt.
  pose proof (fold_squares_bounds seg H 0) as [Hlo Hhi].
  fold (sumSquares seg) in Hlo, Hhi. rewrite Rplus_0_l in Hhi.
  unfold len. rewrite <- INR_IZR_INZ.
  destruct seg as [|f seg'].
  - change (sumSquares []) with 0. unfold Rdiv. rewrite Rmult_0_l. lra.
  - assert (0 < INR (length (f :: seg'))) as Hn
      by (apply lt_0_INR; cbn [length]; lia).
    apply (Rmult_le_reg_r (INR (length (f :: seg')))); [assumption|].
    unfold Rdiv. rewrite Rmult_assoc, Rinv_l by lra. lra.
Qed.

Lemma magnitude_unit seg :
  Forall frame_in_range seg -> unit_interval (magnitude seg).
Proof.
  intros H. unfold unit_interval, magnitude.
  apply math_Pow_unit; [lra | apply rms_unit, H].
Qed.

Lemma bandAfter_unit size samples prev i :
  Forall frame_in_range samples ->
  unit_interval (nth (Z.to_nat i) prev 0) ->
  unit_interval (bandAfter size samples prev i).
Proof.
  intros Hs Hp. unfold bandAfter.
  destruct (i * size <? len samples)%Z; [|exact Hp].
  apply smooth_unit; [exact Hp|].
  apply magnitude_unit, Forall_segment, Hs.
Qed.

Lemma fold_squares_repeat f n : forall acc : R,
  fold_left (fun acc f => acc + mono f * mono f) (repeat f n) acc
  = acc + INR n * (mono f * mono f).
Proof.
  induction n as [|n IH]; intros acc.
  - cbn [repeat fold_left INR]. ring.
  - cbn [repeat fold_left]. rewrite IH, S_INR. ring.
Qed.

(** A segment of identical frames has the magnitude of one of them. *)
Lemma magnitude_repeat f n :
  (0 < n)%nat -> 0 <= mono f ->
  magnitude (repeat f n) = math_Pow (mono f) (3 / 10).
Proof.
  intros Hn Hm. unfold magnitude, rms, sumSquares.
  rewrite fold_squares_repeat, Rplus_0_l.
  unfold len. rewrite repeat_length, <- INR_IZR_INZ.
  assert (0 < INR n) as Hn' by (apply lt_0_INR; assumption).
  replace (INR n * (mono f * mono f) / INR n) with (mono f * mono f)
    by (field; lra).
  rewrite sqrt_square by assumption. reflexivity.
Qed.

Lemma magnitude_silence seg :
  Forall (fun f => f = zeroFrame) seg -> magnitude seg = 0.
Proof.
  intros H.
  assert (seg = repeat zeroFrame (length seg)) as ->.
  { apply Forall_eq_repeat. eapply Forall_impl; [|exact H].
    intros a Ha. symmetry. exact Ha. }
  assert (mono zeroFrame = 0) as Hz
    by (unfold mono, zeroFrame; cbn [fst snd]; unfold float64; lra).
  unfold magnitude, rms, sumSquares.
  rewrite fold_squares_repeat, Hz.
  replace ((0 + INR (length seg) * (0 * 0))
           / IZR (len (repeat zeroFrame (length seg)))) with 0
    by (unfold Rdiv; ring).
  rewrite sqrt_0. apply math_Pow_zero.
Qed.

Lemma math_Pow_1024 : math_Pow 1024 (3 / 10) = 8.
Proof.
  unfold math_Pow. destruct (Req_dec_T 1024 0) as [H|_]; [lra|].
  replace 1024 with (Rpower 2 (INR 10)).
  - rewrite Rpower_mult.
    replace (INR 10 * (3 / 10)) with (INR 3) by (cbn [INR]; lra).
    rewrite Rpower_pow by lra. lra.
  - rewrite Rpower_pow by lra. lra.
Qed.

Lemma spec_update_nth samples prev i :
  (0 <= i < nBands)%Z ->
  nth (Z.to_nat i) (spec_update samples prev) 0
  = bandAfter (spec_segmentSize (len samples)) samples prev i.
Proof.
  intros Hi. unfold spec_update.
  set (f := fun k => bandAfter (spec_segmentSize (len samples)) samples prev
                       (Z.of_nat k)).
  assert (Z.to_nat i < Z.to_nat nBands)%nat as Hlt
    by (unfold nBands in *; lia).
  rewrite (nth_indep _ 0 (f 0%nat))
    by (rewrite length_map, length_seq; exact Hlt).
  rewrite map_nth, seq_nth by exact Hlt.
  subst f. cbn beta. rewrite Nat.add_0_l, Z2Nat.id by lia. reflexivity.
Qed.
End Magnitudes.

(** ** The band analyzer: results *)

(** C2, as the code has it. For every snapshot of [N] frames and every
    stored band state, the update returns 64 bands; it cuts segments of
    [max(1, floor(N / 64))] frames; band [i] whose segment starts inside the
    snapshot gets
    [smoothingFactor * previous + (1 - smoothingFactor) * rms ^ 0.3], with
    the rms of the per-frame mean of the two channels over a segment that
    is always full; every other band keeps its previous value; and
    [smoothingFactor] is 0.6. *)
Theorem update_floor_segments :
  forall samples audioData,
    exists bands,
      analyze samples audioData = Some bands
      /\ len bands = 64
      /\ smoothingFactor = (6 / 10)%R
      /\ forall i, 0 <= i < 64 ->
           let size := Z.max 1 (len samples / 64) in
           let seg := segment samples (i * size) size in
           let prev := nth (Z.to_nat i) (previousBands audioData) 0%R in
           (i * size < len samples ->
              len seg = size
              /\ nth (Z.to_nat i) bands 0%R
                 = (smoothingFactor * prev
                    + (1 - smoothingFactor)
                      * math_Pow (sqrt (sumSquares seg / IZR (len seg)))
                          (3 / 10))%R)
           /\ (len samples <= i * size ->
                 seg = [] /\ nth (Z.to_nat i) bands 0%R = prev).
Proof.
  intros samples ad.
  destruct (analyze_spec samples ad) as (bands & Hrun & Hlen & Hnth).
  exists bands. split; [exact Hrun|]. split; [exact Hlen|].
  split; [reflexivity|].
  intros i Hi size seg prev.
  specialize (Hnth i Hi). unfold bandAfter in Hnth.
  change (segmentSizeOf (len samples)) with size in Hnth.
  fold seg prev in Hnth.
  pose proof (len_nonneg samples) as Hn.
  assert (1 <= size) as Hsize by (subst size; lia).
  split; intros Hcase.
  - destruct (Z.ltb_spec (i * size) (len samples)); [|lia].
    split; [|exact Hnth].
    subst seg. rewrite segment_length by nia.
    assert (i * size + size <= len samples); [|lia].
    subst size.
    destruct (Z.max_spec 1 (len samples / 64)) as [[Hlt ->]|[Hge ->]].
    + pose proof (Z.mul_div_le (len samples) 64 ltac:(lia)). nia.
    + lia.
  - destruct (Z.ltb_spec (i * size) (len samples)); [lia|].
    split; [|exact Hnth].
    subst seg. unfold segment. rewrite skipn_all2; [apply firstn_nil|].
    unfold len in *. lia.
Qed.

(** C2, as stated, fails: on 65 silent frames the code cuts segments of one
    frame, not of [ceil(65 / 64) = 2], and so updates band 63, which the
    stated partition leaves untouched. *)
Lemma update_not_ceil_segments :
  ~ update_meets_spec (repeat zeroFrame 65) (repeat 1%R 64).
Proof.
  intros H.
  destruct (analyze_spec (repeat zeroFrame 65) (repeat 1%R 64))
    as (bands & Hrun & _ & Hnth).
  specialize (H bands Hrun). specialize (Hnth 63 ltac:(unfold nBands; lia)).
  rewrite H, spec_update_nth in Hnth by (unfold nBands; lia).
  unfold bandAfter in Hnth.
  change (63 * spec_segmentSize (len (repeat zeroFrame 65))
          <? len (repeat zeroFrame 65)) with false in Hnth.
  change (63 * segmentSizeOf (len (repeat zeroFrame 65))
          <? len (repeat zeroFrame 65)) with true in Hnth.
  change (nth (Z.to_nat 63) (previousBands (repeat 1%R 64)) 0%R)
    with 1%R in Hnth.
  cbv iota in Hnth.
  rewrite magnitude_silence, smooth_silence in Hnth
    by (apply Forall_segment, Forall_forall; intros f Hf;
        apply repeat_spec in Hf; exact Hf).
  unfold smoothingFactor, float64 in Hnth. lra.
Qed.

(** C3, as the code has it. When every amplitude of the snapshot lies in
    [-1, 1] and every stored band in [0, 1], every band after the update
    lies in [0, 1]; the update does not clamp. *)
Theorem bands_stay_in_unit_interval :
  forall samples audioData,
    Forall frame_in_range samples ->
    Forall unit_interval audioData ->
    exists bands,
      analyze samples audioData = Some bands
      /\ len bands = nBands
      /\ Forall unit_interval bands.
Proof.
  intros samples ad Hs Ha.
  destruct (analyze_spec samples ad) as (bands & Hrun & Hlen & Hnth).
  exists bands. split; [exact Hrun|]. split; [exact Hlen|].
  assert (Forall unit_interval (previousBands ad)) as Hp.
  { unfold previousBands. destruct (len ad =? nBands); [exact Ha|].
    apply Forall_forall. intros x Hx. apply repeat_spec in Hx. subst x.
    unfold unit_interval. lra. }
  pose proof (previousBands_length ad) as Hpl.
  apply Forall_nth. intros j d Hj.
  rewrite (nth_indep _ d 0%R) by exact Hj.
  rewrite <- (Nat2Z.id j).
  rewrite Hnth by (unfold len in Hlen; lia).
  apply bandAfter_unit; [exact Hs|].
  rewrite Nat2Z.id.
  apply (proj1 (Forall_nth unit_interval (previousBands ad))); [exact Hp|].
  unfold len in *. lia.
Qed.

Lemma bands_stay_in_unit_interval_witness :
  exists bands,
    analyze [(1, -1); (1 / 2, 1)]%R [] = Some bands
    /\ len bands = nBands
    /\ Forall unit_interval bands.
Proof.
  apply (bands_stay_in_unit_interval [(1, -1); (1 / 2, 1)]%R []).
  - repeat constructor; cbn [fst snd]; lra.
  - constructor.
Defined.

(** C3, as stated, fails: on the 2048-frame snapshot whose frames all have
    amplitude 1024, starting from no stored bands, band 0 becomes 3.2. *)
Lemma loud_band_exceeds_one :
  exists bands,
    analyze (repeat (1024, 1024)%R 2048) [] = Some bands
    /\ nth 0 bands 0%R = (32 / 10)%R
    /\ ~ unit_interval (nth 0 bands 0%R).
Proof.
  destruct (analyze_spec (repeat (1024, 1024)%R 2048) [])
    as (bands & Hrun & _ & Hnth).
  exists bands. split; [exact Hrun|].
  specialize (Hnth 0 ltac:(unfold nBands; lia)).
  unfold bandAfter in Hnth.
  change (0 * segmentSizeOf (len (repeat (1024, 1024)%R 2048))
          <? len (repeat (1024, 1024)%R 2048)) with true in Hnth.
  change (nth (Z.to_nat 0) (previousBands []) 0%R) with 0%R in Hnth.
  change (segment (repeat (1024, 1024)%R 2048)
            (0 * segmentSizeOf (len (repeat (1024, 1024)%R 2048)))
            (segmentSizeOf (len (repeat (1024, 1024)%R 2048))))
    with (repeat (1024, 1024)%R 32) in Hnth.
  cbv iota in Hnth.
  assert (mono (1024, 1024)%R = 1024%R) as Hm
    by (unfold mono; cbn [fst snd]; unfold float64; lra).
  rewrite magnitude_repeat, Hm, math_Pow_1024 in Hnth
    by (rewrite ?Hm; lia || lra).
  change (Z.to_nat 0) with 0%nat in Hnth.
  assert (nth 0 bands 0%R = (32 / 10)%R) as E.
  { rewrite Hnth. unfold smooth, smoothingFactor, float64. lra. }
  split; [exact E|].
  rewrite E. unfold unit_interval. lra.
Qed.

Lemma analyze_silence samples audioData :
  Forall (fun f => f = zeroFrame) samples ->
  nBands <= len samples ->
  len audioData = nBands ->
  exists bands,
    analyze samples audioData = Some bands
    /\ len bands = nBands
    /\ forall i, 0 <= i < nBands ->
         nth (Z.to_nat i) bands 0%R
         = (smoothingFactor * nth (Z.to_nat i) audioData 0)%R.
Proof.
  intros Hz Hn Ha.
  destruct (analyze_spec samples audioData) as (bands & Hrun & Hlen & Hnth).
  exists bands. split; [exact Hrun|]. split; [exact Hlen|].
  intros i Hi. rewrite (Hnth i Hi). unfold bandAfter, previousBands.
  rewrite Ha, Z.eqb_refl.
  assert (i * segmentSizeOf (len samples) < len samples) as Hin.
  { unfold segmentSizeOf, nBands in *.
    pose proof (Z.mul_div_le (len samples) 64 ltac:(lia)).
    assert (1 <= len samples / 64) by (apply Z.div_le_lower_bound; lia).
    nia. }
  destruct (Z.ltb_spec (i * segmentSizeOf (len samples)) (len samples));
    [|lia].
  rewrite magnitude_silence by (apply Forall_segment, Hz).
  apply smooth_silence.
Qed.

(** C9. For every stored state of 64 bands, an update with a snapshot of
    all-zero frames that covers the 64 segments multiplies every band by
    [smoothingFactor = 0.6]; hence [k] such updates in a row multiply every
    band by [0.6 ^ k]. *)
Theorem silence_decays :
  forall samples audioData k,
    Forall (fun f => f = zeroFrame) samples ->
    nBands <= len samples ->
    len audioData = nBands ->
    smoothingFactor = (6 / 10)%R
    /\ (exists bands,
          analyze samples audioData = Some bands
          /\ forall i, 0 <= i < nBands ->
               nth (Z.to_nat i) bands 0%R
               = (smoothingFactor * nth (Z.to_nat i) audioData 0)%R)
    /\ (exists bands,
          analyze_n k samples audioData = Some bands
          /\ forall i, 0 <= i < nBands ->
               nth (Z.to_nat i) bands 0%R
               = (smoothingFactor ^ k * nth (Z.to_nat i) audioData 0)%R).
Proof.
  intros samples ad k Hz Hn Ha. split; [reflexivity|]. split.
  - destruct (analyze_silence samples ad Hz Hn Ha) as (bands & Hrun & _ & H).
    exists bands. split; assumption.
  - revert ad Ha. induction k as [|k IH]; intros ad Ha.
    + exists ad. split; [reflexivity|]. intros i Hi.
      cbn [pow]. unfold float64. ring.
    + destruct (analyze_silence samples ad Hz Hn Ha)
        as (bands & Hrun & Hlen & H).
      destruct (IH bands Hlen) as (bands' & Hrun' & H').
      exists bands'. cbn [analyze_n]. rewrite Hrun.
      split; [exact Hrun'|]. intros i Hi.
      rewrite (H' i Hi), (H i Hi). cbn [pow]. unfold float64. ring.
Qed.

Lemma silence_decays_witness :
  exists bands,
    analyze_n 2 (repeat zeroFrame 64) (repeat 1%R 64) = Some bands
    /\ forall i, 0 <= i < nBands ->
         nth (Z.to_nat i) bands 0%R
         = (smoothingFactor ^ 2 * nth (Z.to_nat i) (repeat 1%R 64) 0)%R.
Proof.
  apply (silence_decays (repeat zeroFrame 64) (repeat 1%R 64) 2).
  - apply Forall_forall. intros f Hf. apply repeat_spec in Hf. exact Hf.
  - vm_compute. discriminate.
  - reflexivity.
Defined.

(** ** The playback tracker: arithmetic *)

(** Linear goals over the 64-bit bounds and the duration units. *)
Ltac int64_lia :=
  unfold minInt64, maxInt64, Second, Millisecond in *;
  change (2 ^ 63) with 9223372036854775808 in *;
  first [lia | nia].

Section TrackerArithmetic.

Lemma wrap64_small z : minInt64 <= z <= maxInt64 -> wrap64 z = z.
Proof.
  unfold wrap64, minInt64, maxInt64.
  change (2 ^ 63) with 9223372036854775808.
  change (2 ^ 64) with 18446744073709551616.
  intros H. rewrite Z.mod_small; lia.
Qed.

(** A second holds [sr] samples. *)
Lemma SampleRate_N_second sr :
  0 < sr <= Second -> SampleRate_N sr Second = sr.
Proof.
  intros H. unfold SampleRate_N.
  rewrite (wrap64_small (Second * sr)) by int64_lia.
  rewrite Z.mul_comm, Z.quot_mul by (unfold Second; lia).
  apply wrap64_small. int64_lia.
Qed.

Lemma div64_duration n sr :
  0 < sr <= Second -> 0 <= n -> n * Second <= maxInt64 ->
  div64 (wrap64 (n * Second)) (SampleRate_N sr Second)
  = Some (Z.quot (n * Second) sr)
  /\ 0 <= Z.quot (n * Second) sr <= n * Second.
Proof.
  intros Hsr Hn Hmax.
  assert (0 <= n * Second) as Hns by (unfold Second; lia).
  assert (0 <= Z.quot (n * Second) sr <= n * Second) as Hq.
  { split; [apply Z.quot_pos; lia|].
    rewrite Z.quot_div_nonneg by lia.
    apply Z.div_le_upper_bound; nia. }
  split; [|exact Hq].
  rewrite SampleRate_N_second by assumption.
  rewrite wrap64_small by int64_lia. unfold div64.
  destruct (Z.eqb_spec sr 0); [lia|].
  rewrite wrap64_small by int64_lia. reflexivity.
Qed.

Lemma time_Sub_mono t t' u : t <= t' -> time_Sub t u <= time_Sub t' u.
Proof. unfold time_Sub. lia. Qed.

(** The clamp of the requested fraction. *)
Lemma seekTarget_above g maxPos (pos : R) :
  (1 <= pos)%R -> seekTarget g maxPos pos = seekTarget g maxPos 1%R.
Proof.
  intros Hp. unfold seekTarget.
  destruct (Rlt_dec pos 0); [lra|].
  destruct (Rlt_dec 1 0); [lra|].
  destruct (Rlt_dec 1 pos); destruct (Rlt_dec 1 1); try lra; try reflexivity.
  replace pos with 1%R by lra. reflexivity.
Qed.

Lemma seekTarget_below g maxPos (pos : R) :
  (pos <= 0)%R -> seekTarget g maxPos pos = seekTarget g maxPos 0%R.
Proof.
  intros Hp. unfold seekTarget.
  destruct (Rlt_dec 0 0); [lra|].
  destruct (Rlt_dec pos 0).
  - reflexivity.
  - replace pos with 0%R by lra. reflexivity.
Qed.

(** The offset handed to the decoder is a valid sample index. *)
Lemma seekTarget_range g maxPos pos :
  1 <= maxPos <= maxInt64 -> 0 <= seekTarget g maxPos pos <= maxPos - 1.
Proof.
  intros Hm. unfold seekTarget.
  set (t := trunc _). clearbody t.
  destruct (Z.ltb_spec t 0).
  - destruct (Z.geb_spec 0 maxPos); lia.
  - destruct (Z.geb_spec t maxPos); [rewrite wrap64_small|];
      int64_lia.
Qed.

(** At the end of the bar the offset is the last sample. *)
Lemma seekTarget_end g d :
  streamer g = Some d -> loaded g ->
  seekTarget g (Len d) 1%R = Len d - 1.
Proof.
  intros Hs Hl. unfold loaded in Hl. rewrite Hs in Hl.
  destruct Hl as [(Hsr & Hlen & Hfit) Hdur].
  unfold seekTarget.
  destruct (Rlt_dec 1 0); [lra|]. destruct (Rlt_dec 1 1); [lra|].
  rewrite Hdur, Z.quot_div_nonneg by (unfold Second in *; lia).
  set (q := Len d * Second / sampleRate g).
  assert (0 <= q) as Hq0 by (apply Z.div_pos; unfold Second in *; lia).
  pose proof (Z.mul_div_le (Len d * Second) (sampleRate g) ltac:(lia)) as Hq1.
  pose proof (Z.mul_succ_div_gt (Len d * Second) (sampleRate g) ltac:(lia))
    as Hq2.
  fold q in Hq1, Hq2.
  replace (1 * IZR q * IZR (sampleRate g) / IZR Second)%R
    with (IZR (q * sampleRate g) / IZR Second)%R
    by (rewrite mult_IZR; unfold Rdiv; ring).
  rewrite trunc_div by (unfold Second; nia).
  set (t := q * sampleRate g / Second).
  assert (Len d - 1 <= t <= Len d) as Ht.
  { subst t. split.
    - apply Z.div_le_lower_bound; unfold Second in *; nia.
    - apply Z.div_le_upper_bound; unfold Second in *; nia. }
  destruct (Z.ltb_spec t 0).
  - assert (Len d = 0) as -> by lia.
    destruct (Z.geb_spec 0 0); [|lia]. apply wrap64_small. int64_lia.
  - destruct (Z.geb_spec t (Len d)); [apply wrap64_small|]; int64_lia.
Qed.
End TrackerArithmetic.

(** ** The playback tracker: operations *)

Section TrackerOperations.

Lemma seek_debounced g pos now1 now2 seek :
  time_Sub now1 (lastSeekTime g) < 50 * Millisecond ->
  seekToPosition g pos now1 now2 seek = Some g.
Proof.
  intros H. unfold seekToPosition.
  destruct (streamer g); [|reflexivity].
  destruct (Z.ltb_spec (time_Sub now1 (lastSeekTime g)) (50 * Millisecond));
    [reflexivity | lia].
Qed.

(** A request that passes the debounce test calls the decoder. *)
Lemma seek_attempt g d pos now1 now2 seek :
  streamer g = Some d ->
  50 * Millisecond <= time_Sub now1 (lastSeekTime g) ->
  let seekPos := seekTarget g (Len d) pos in
  let g1 := set_streamer g
              (Some {| Len := Len d; seekCalls := seekPos :: seekCalls d |}) in
  seekToPosition g pos now1 now2 seek
  = match seek seekPos with
    | Some err => Some (set_lastErr g1 (Some err))
    | None =>
        p <- div64 (wrap64 (seekPos * Second))
               (SampleRate_N (sampleRate g) Second) ;;
        Some (set_lastSeekTime (set_audioPosition g1 p) now2)
    end.
Proof.
  intros Hs Hd. unfold seekToPosition. rewrite Hs.
  destruct (Z.ltb_spec (time_Sub now1 (lastSeekTime g)) (50 * Millisecond));
    [lia | reflexivity].
Qed.

Lemma loaded_positive_length g d :
  streamer g = Some d -> loaded g -> audioDuration g > 0 -> 1 <= Len d.
Proof.
  intros Hs Hl Hpos. unfold loaded in Hl. rewrite Hs in Hl.
  destruct Hl as [(Hsr & Hlen & _) Hdur].
  destruct (Z.eq_dec (Len d) 0) as [E|]; [|lia].
  rewrite E in Hdur. cbn in Hdur. lia.
Qed.

(** The position a successful seek stores. *)
Lemma seek_position g d p :
  streamer g = Some d -> loaded g -> 0 <= p <= Len d - 1 ->
  div64 (wrap64 (p * Second)) (SampleRate_N (sampleRate g) Second)
  = Some (Z.quot (p * Second) (sampleRate g))
  /\ 0 <= Z.quot (p * Second) (sampleRate g) <= audioDuration g.
Proof.
  intros Hs Hl Hp. unfold loaded in Hl. rewrite Hs in Hl.
  destruct Hl as [(Hsr & Hlen & Hfit) Hdur].
  destruct (div64_duration p (sampleRate g) Hsr ltac:(lia))
    as [Hdiv Hq]; [int64_lia|].
  split; [exact Hdiv|]. split; [lia|].
  rewrite Hdur. apply Z.quot_le_mono; [lia|]. unfold Second. lia.
Qed.

Lemma tick_in_range g :
  loaded g -> position_in_range g ->
  position_in_range (updateAudioPosition g).
Proof.
  unfold position_in_range, updateAudioPosition, loaded.
  intros Hl Hp. destruct (streamer g) as [d|]; [|exact Hp].
  destruct (paused g); [exact Hp|].
  destruct Hl as [(Hsr & Hlen & Hfit) Hdur].
  assert (Z.quot Second 60 = 16666666) as Htick by reflexivity.
  assert (audioDuration g <= Len d * Second) as Hle.
  { rewrite Hdur, Z.quot_div_nonneg by (unfold Second in *; lia).
    apply Z.div_le_upper_bound; unfold Second in *; nia. }
  rewrite wrap64_small by int64_lia.
  cbn [audioPosition audioDuration set_audioPosition].
  destruct (Z.gtb_spec (audioPosition g + Z.quot Second 60)
              (audioDuration g)); lia.
Qed.

Lemma seek_in_range g pos now1 now2 seek g' :
  streamer g <> None -> audioDuration g > 0 ->
  loaded g -> position_in_range g ->
  seekToPosition g pos now1 now2 seek = Some g' ->
  position_in_range g' /\ loaded g'.
Proof.
  intros Hs Hpos Hl Hp.
  destruct (streamer g) as [d|] eqn:Hd; [clear Hs | congruence].
  destruct (Z.lt_ge_cases (time_Sub now1 (lastSeekTime g))
              (50 * Millisecond)) as [Hdeb|Hrun].
  - rewrite seek_debounced by assumption. intros [= <-]. tauto.
  - rewrite (seek_attempt g d) by assumption.
    assert (loaded (set_streamer g
              (Some {| Len := Len d;
                       seekCalls := seekTarget g (Len d) pos
                                    :: seekCalls d |}))) as Hl'.
    { unfold loaded in *. rewrite Hd in Hl. cbn. exact Hl. }
    destruct (seek (seekTarget g (Len d) pos)) as [err|].
    + intros [= <-]. split; [exact Hp | exact Hl'].
    + pose proof (loaded_positive_length g d Hd Hl Hpos) as Hlen.
      assert (Len d <= maxInt64) as Hmax.
      { unfold loaded in Hl. rewrite Hd in Hl.
        destruct Hl as [(_ & _ & Hfit) _].
        int64_lia. }
      pose proof (seekTarget_range g (Len d) pos ltac:(lia)) as Hr.
      destruct (seek_position g d _ Hd Hl Hr) as [Hdiv Hq].
      cbn [sampleRate set_streamer]. rewrite Hdiv.
      intros [= <-]. split; [exact Hq | exact Hl'].
Qed.

Lemma load_in_range g d sr g' :
  playable d sr -> loadAndPlay g d sr = Some g' ->
  position_in_range g' /\ loaded g'.
Proof.
  intros Hpl. unfold loadAndPlay.
  destruct (newVisualTap visualRingSize) as [t|]; [|discriminate].
  pose proof Hpl as (Hsr & Hlen & Hfit).
  destruct (div64_duration (Len d) sr Hsr Hlen ltac:(lia)) as [Hdiv Hq].
  rewrite Hdiv. intros [= <-].
  unfold position_in_range, loaded. cbn. split; [lia|]. tauto.
Qed.

(** The invariant of the playback state. *)
Lemma reachable_invariant g :
  reachable g -> position_in_range g /\ loaded g.
Proof.
  induction 1 as [|g g' _ [Hp Hl] Hstep].
  - split; [unfold position_in_range; cbn; lia | exact I].
  - destruct Hstep as [g | g pos now1 now2 seek g' Hs Hd Hrun | g
                      | g g' Hrun | g d sr g' Hpl Hrun | g].
    + split; [apply tick_in_range; assumption|].
      unfold loaded, updateAudioPosition in *.
      destruct (streamer g) eqn:E; [|rewrite E; exact I].
      destruct (paused g); [rewrite E; exact Hl|].
      cbn. rewrite E. exact Hl.
    + eapply seek_in_range; eassumption.
    + unfold togglePause. destruct (ctrl g); split; assumption.
    + unfold updateAudioData in Hrun.
      destruct (tap g) as [t|]; [|injection Hrun as <-; tauto].
      destruct (snapshot t 2048) as [samples|]; [|discriminate].
      destruct (len samples =? 0); [injection Hrun as <-; tauto|].
      destruct (analyze samples (audioData g)); [|discriminate].
      injection Hrun as <-. split; assumption.
    + eapply load_in_range; eassumption.
    + split; [unfold position_in_range; cbn; lia | exact I].
Qed.
End TrackerOperations.

(** ** The playback tracker: results *)

Lemma tenSecondGame_loaded :
  loadAndPlay NewGame tenSecondStream 44100 = Some tenSecondGame
  /\ playable tenSecondStream 44100
  /\ loaded tenSecondGame.
Proof.
  assert (playable tenSecondStream 44100) as Hp.
  { unfold playable. cbn [Len tenSecondStream].
    unfold maxInt64, Second.
    change (2 ^ 63) with 9223372036854775808. lia. }
  split; [reflexivity|]. split; [exact Hp|].
  unfold loaded. cbn [streamer tenSecondGame sampleRate audioDuration].
  split; [exact Hp | reflexivity].
Qed.

Lemma tenSecondGame_seek_due now1 :
  0 <= now1 -> 50 * Millisecond <= time_Sub now1 (lastSeekTime tenSecondGame).
Proof.
  intros H. cbn [lastSeekTime tenSecondGame].
  unfold time_Sub, zeroTime, minInt64, maxInt64, Millisecond, Second.
  change (2 ^ 63) with 9223372036854775808. lia.
Qed.

Lemma seekTarget_half :
  seekTarget tenSecondGame 441000 (1 / 2)%R = 220500.
Proof.
  unfold seekTarget.
  destruct (Rlt_dec (1 / 2) 0); [lra|].
  destruct (Rlt_dec 1 (1 / 2)); [lra|].
  cbn [audioDuration sampleRate tenSecondGame].
  replace (1 / 2 * IZR (10 * Second) * IZR 44100 / IZR Second)%R
    with (IZR 220500).
  - rewrite trunc_IZR by lia. reflexivity.
  - change (10 * Second) with 10000000000. unfold Second. lra.
Qed.

(** C5. A seek request that arrives less than 50ms after the last successful
    seek is ignored entirely: the whole player state, the decoder and its
    record of [Seek] calls included, is unchanged. Hence after a successful
    request, a second one within the window leaves the position at the
    first one's result. *)
Theorem seek_debounce_ignores_request :
  (forall g pos now1 now2 seek,
      time_Sub now1 (lastSeekTime g) < 50 * Millisecond ->
      seekToPosition g pos now1 now2 seek = Some g)
  /\ (forall g d pos1 now1 now2 seek1 pos2 now3 now4 seek2,
        streamer g = Some d -> loaded g -> audioDuration g > 0 ->
        50 * Millisecond <= time_Sub now1 (lastSeekTime g) ->
        seek1 (seekTarget g (Len d) pos1) = None ->
        time_Sub now3 now2 < 50 * Millisecond ->
        exists g1,
          seekToPosition g pos1 now1 now2 seek1 = Some g1
          /\ audioPosition g1
             = Z.quot (seekTarget g (Len d) pos1 * Second) (sampleRate g)
          /\ lastSeekTime g1 = now2
          /\ seekToPosition g1 pos2 now3 now4 seek2 = Some g1).
Proof.
  split; [exact seek_debounced|].
  intros g d pos1 now1 now2 seek1 pos2 now3 now4 seek2
         Hd Hl Hpos Hdue Hok Hwin.
  rewrite (seek_attempt g d) by assumption. rewrite Hok.
  pose proof (loaded_positive_length g d Hd Hl Hpos) as Hlen.
  assert (Len d <= maxInt64) as Hmax.
  { unfold loaded in Hl. rewrite Hd in Hl.
    destruct Hl as [(_ & _ & Hfit) _].
    int64_lia. }
  pose proof (seekTarget_range g (Len d) pos1 ltac:(lia)) as Hr.
  destruct (seek_position g d _ Hd Hl Hr) as [Hdiv _].
  cbn [sampleRate set_streamer]. rewrite Hdiv.
  eexists. split; [reflexivity|].
  split; [reflexivity|]. split; [reflexivity|].
  apply seek_debounced. exact Hwin.
Qed.

Lemma seek_debounce_ignores_request_witness :
  exists g1,
    seekToPosition tenSecondGame (1 / 2)%R 1000 2000 (fun _ => None) = Some g1
    /\ audioPosition g1 = 5 * Second
    /\ lastSeekTime g1 = 2000
    /\ seekToPosition g1 (1 / 4)%R 30000000 30000500 (fun _ => None)
       = Some g1.
Proof.
  destruct (proj2 seek_debounce_ignores_request
              tenSecondGame tenSecondStream (1 / 2)%R 1000 2000
              (fun _ => None) (1 / 4)%R 30000000 30000500 (fun _ => None)
              eq_refl (proj2 (proj2 tenSecondGame_loaded))
              ltac:(reflexivity)
              (tenSecondGame_seek_due 1000 ltac:(lia)) eq_refl
              ltac:(reflexivity))
    as (g1 & Hrun & Hpos & Htime & Hagain).
  exists g1. split; [exact Hrun|]. split; [|split; assumption].
  rewrite Hpos. cbn [Len tenSecondStream]. rewrite seekTarget_half.
  reflexivity.
Defined.

(** C6. When the decoder's [Seek] returns an error, the position and the
    time of the last seek are left as they were, the error is stored in
    [lastErr], and a retry at any later instant passes the debounce test
    again. *)
Theorem seek_error_leaves_clock :
  forall g d pos now1 now2 seek err,
    streamer g = Some d ->
    50 * Millisecond <= time_Sub now1 (lastSeekTime g) ->
    seek (seekTarget g (Len d) pos) = Some err ->
    exists g',
      seekToPosition g pos now1 now2 seek = Some g'
      /\ audioPosition g' = audioPosition g
      /\ audioDuration g' = audioDuration g
      /\ lastSeekTime g' = lastSeekTime g
      /\ lastErr g' = Some err
      /\ streamer g'
         = Some {| Len := Len d;
                   seekCalls := seekTarget g (Len d) pos :: seekCalls d |}
      /\ forall now3, now1 <= now3 ->
           50 * Millisecond <= time_Sub now3 (lastSeekTime g').
Proof.
  intros g d pos now1 now2 seek err Hd Hdue Herr.
  rewrite (seek_attempt g d) by assumption. rewrite Herr.
  eexists. split; [reflexivity|].
  cbn [audioPosition audioDuration lastSeekTime lastErr set_lastErr
       set_streamer streamer].
  repeat (split; [reflexivity|]).
  intros now3 Hlater.
  pose proof (time_Sub_mono now1 now3 (lastSeekTime g) Hlater). lia.
Qed.

Lemma seek_error_leaves_clock_witness :
  exists g',
    seekToPosition tenSecondGame (1 / 2)%R 1000 2000
      (fun _ => Some (mkError 5)) = Some g'
    /\ audioPosition g' = 0
    /\ audioDuration g' = 10 * Second
    /\ lastSeekTime g' = zeroTime
    /\ lastErr g' = Some (mkError 5)
    /\ streamer g' = Some {| Len := 441000; seekCalls := [220500] |}
    /\ forall now3, 1000 <= now3 ->
         50 * Millisecond <= time_Sub now3 (lastSeekTime g').
Proof.
  destruct (seek_error_leaves_clock tenSecondGame tenSecondStream (1 / 2)%R
              1000 2000 (fun _ => Some (mkError 5)) (mkError 5)
              eq_refl (tenSecondGame_seek_due 1000 ltac:(lia)) eq_refl)
    as (g' & Hrun & Hpos & Hdur & Htime & Herr & Hcall & Hretry).
  exists g'. repeat (split; [assumption|]).
  split; [|exact Hretry].
  rewrite Hcall. cbn [Len seekCalls tenSecondStream].
  rewrite seekTarget_half. reflexivity.
Defined.

(** C7. [seekToPosition] clamps the requested fraction to [0, 1] (above 1 to
    1, below 0 to 0), so a request at 1.5 behaves as a request at 1.0; for a loaded stream that
    request hands the decoder the offset [totalSamples - 1]; and at 44100 Hz
    with 441000 samples, a request at 0.5 hands it 220500 and sets the
    position to 5 seconds. *)
Theorem seek_clamps_request :
  (forall g pos now1 now2 seek,
      (1 <= pos)%R ->
      seekToPosition g pos now1 now2 seek
      = seekToPosition g 1%R now1 now2 seek)
  /\ (forall g pos now1 now2 seek,
        (pos <= 0)%R ->
        seekToPosition g pos now1 now2 seek
        = seekToPosition g 0%R now1 now2 seek)
  /\ (forall g now1 now2 seek,
        seekToPosition g (3 / 2)%R now1 now2 seek
        = seekToPosition g 1%R now1 now2 seek)
  /\ (forall g d pos now1 now2 seek,
        streamer g = Some d -> loaded g ->
        50 * Millisecond <= time_Sub now1 (lastSeekTime g) ->
        (1 <= pos)%R ->
        exists g',
          seekToPosition g pos now1 now2 seek = Some g'
          /\ streamer g'
             = Some {| Len := Len d;
                       seekCalls := (Len d - 1) :: seekCalls d |})
  /\ (forall now1 now2 seek,
        50 * Millisecond <= time_Sub now1 (lastSeekTime tenSecondGame) ->
        seek 220500 = None ->
        exists g',
          seekToPosition tenSecondGame (1 / 2)%R now1 now2 seek = Some g'
          /\ streamer g'
             = Some {| Len := 441000; seekCalls := [220500] |}
          /\ audioPosition g' = 5 * Second).
Proof.
  assert (forall g pos now1 now2 seek,
             (1 <= pos)%R ->
             seekToPosition g pos now1 now2 seek
             = seekToPosition g 1%R now1 now2 seek) as Hclamp.
  { intros g pos now1 now2 seek Hp. unfold seekToPosition.
    destruct (streamer g) as [d|]; [|reflexivity].
    rewrite (seekTarget_above g (Len d) pos Hp). reflexivity. }
  split; [exact Hclamp|].
  split.
  { intros g pos now1 now2 seek Hp. unfold seekToPosition.
    destruct (streamer g) as [d|]; [|reflexivity].
    rewrite (seekTarget_below g (Len d) pos Hp). reflexivity. }
  split; [intros; apply Hclamp; lra|].
  split.
  - intros g d pos now1 now2 seek Hd Hl Hdue Hp.
    rewrite (seek_attempt g d) by assumption.
    rewrite (seekTarget_above g (Len d) pos Hp), (seekTarget_end g d Hd Hl).
    destruct (seek (Len d - 1)) as [err|].
    + eexists. split; reflexivity.
    + assert (SampleRate_N (sampleRate g) Second = sampleRate g
              /\ sampleRate g <> 0) as [HN Hnz].
      { unfold loaded in Hl. rewrite Hd in Hl.
        destruct Hl as [(Hsr & _) _].
        split; [apply SampleRate_N_second; exact Hsr | lia]. }
      cbn [sampleRate set_streamer]. rewrite HN. unfold div64.
      destruct (Z.eqb_spec (sampleRate g) 0); [contradiction|].
      eexists. split; reflexivity.
  - intros now1 now2 seek Hdue Hok.
    rewrite (seek_attempt tenSecondGame tenSecondStream) by (reflexivity || assumption).
    cbn [Len tenSecondStream]. rewrite seekTarget_half, Hok.
    eexists. split; [reflexivity|]. split; reflexivity.
Qed.

Lemma seek_clamps_request_witness :
  exists g',
    seekToPosition tenSecondGame 7%R 1000 2000 (fun _ => None) = Some g'
    /\ streamer g' = Some {| Len := 441000; seekCalls := [440999] |}.
Proof.
  exact (proj1 (proj2 (proj2 (proj2 seek_clamps_request)))
           tenSecondGame tenSecondStream 7%R 1000 2000 (fun _ => None)
           eq_refl (proj2 (proj2 tenSecondGame_loaded))
           (tenSecondGame_seek_due 1000 ltac:(lia))
           ltac:(lra)).
Defined.

(** C8. In every state the player reaches, [0 <= position <= total]; a tick
    (its advance clamped to the total), a seek (its offset within
    [0, totalSamples - 1]) and the end of the stream (both reset to 0) keep
    it so, and the seek does not panic. *)
Theorem position_stays_in_range :
  forall g,
    reachable g ->
    position_in_range g
    /\ position_in_range (updateAudioPosition g)
    /\ (audioPosition (streamEnded g) = 0
        /\ audioDuration (streamEnded g) = 0)
    /\ forall pos now1 now2 seek d,
         streamer g = Some d -> audioDuration g > 0 ->
         0 <= seekTarget g (Len d) pos <= Len d - 1
         /\ exists g',
              seekToPosition g pos now1 now2 seek = Some g'
              /\ position_in_range g'.
Proof.
  intros g Hreach.
  destruct (reachable_invariant g Hreach) as [Hp Hl].
  split; [exact Hp|].
  split; [apply tick_in_range; assumption|].
  split; [split; reflexivity|].
  intros pos now1 now2 seek d Hd Hpos.
  pose proof (loaded_positive_length g d Hd Hl Hpos) as Hlen.
  assert (Len d <= maxInt64) as Hmax.
  { unfold loaded in Hl. rewrite Hd in Hl.
    destruct Hl as [(_ & _ & Hfit) _].
    int64_lia. }
  pose proof (seekTarget_range g (Len d) pos ltac:(lia)) as Hr.
  split; [exact Hr|].
  assert (exists g', seekToPosition g pos now1 now2 seek = Some g')
    as [g' Hrun].
  { destruct (Z.lt_ge_cases (time_Sub now1 (lastSeekTime g))
                (50 * Millisecond)) as [Hdeb|Hdue].
    - exists g. apply seek_debounced. exact Hdeb.
    - rewrite (seek_attempt g d) by assumption.
      destruct (seek (seekTarget g (Len d) pos)); [eexists; reflexivity|].
      destruct (seek_position g d _ Hd Hl Hr) as [Hdiv _].
      cbn [sampleRate set_streamer]. rewrite Hdiv.
      eexists. reflexivity. }
  exists g'. split; [exact Hrun|].
  apply (seek_in_range g pos now1 now2 seek g'); try assumption.
  rewrite Hd. discriminate.
Qed.

Lemma position_stays_in_range_witness :
  position_in_range tenSecondGame
  /\ position_in_range (updateAudioPosition tenSecondGame).
Proof.
  destruct (position_stays_in_range tenSecondGame
              (reach_step NewGame tenSecondGame reach_new
                 (step_load NewGame tenSecondStream 44100 tenSecondGame
                    (proj1 (proj2 tenSecondGame_loaded))
                    (proj1 tenSecondGame_loaded))))
    as (Hnow & Htick & _).
  split; assumption.
Defined.

(** * Further properties of the code *)

(** ** The ring-buffer tap *)

Lemma record_cursor fs : forall t,
  0 <= nextIndex t < len (buffer t) ->
  exists t',
    record fs t = Some t'
    /\ len (buffer t') = len (buffer t)
    /\ nextIndex t' = (nextIndex t + len fs) mod len (buffer t).
Proof.
  induction fs as [|f fs IH]; intros t Hi.
  - exists t. split; [reflexivity|]. split; [reflexivity|].
    change (len (@nil Frame)) with 0.
    rewrite Z.add_0_r, Z.mod_small by lia. reflexivity.
  - cbn [record].
    destruct (slice_split (buffer t) (nextIndex t) Hi)
      as (a & x & r & Hb & Hl).
    assert (slice_set (buffer t) (nextIndex t) f = Some (a ++ f :: r))
      as -> by (rewrite <- Hl, Hb; apply slice_set_app).
    assert (len (a ++ f :: r) = len (buffer t)) as Hlen
      by (rewrite Hb, !len_app; reflexivity).
    set (ni := if nextIndex t + 1 >=? len (a ++ f :: r) then 0
               else nextIndex t + 1).
    assert (ni = (nextIndex t + 1) mod len (buffer t)) as Hni.
    { subst ni. rewrite Hlen.
      destruct (Z.geb_spec (nextIndex t + 1) (len (buffer t))).
      - replace (nextIndex t + 1) with (len (buffer t)) by lia.
        rewrite Z.mod_same by lia. reflexivity.
      - rewrite Z.mod_small by lia. reflexivity. }
    destruct (IH {| buffer := a ++ f :: r; nextIndex := ni |})
      as (t' & Hr & Hb' & Hc).
    { cbn [buffer nextIndex]. rewrite Hlen, Hni.
      apply Z.mod_pos_bound. lia. }
    cbn [buffer nextIndex] in *.
    exists t'. split; [exact Hr|]. split; [lia|].
    rewrite Hc, Hlen, Hni, Z.add_mod_idemp_l by lia.
    f_equal. unfold len. cbn [length]. lia.
Qed.

(** X1. On a ring of positive size, [Stream] never panics, hands back the
    count and flag of the source, never resizes the ring, and moves the
    write cursor by the number of frames modulo the capacity. *)
Theorem stream_cursor_advances :
  forall t fs ok,
    0 <= nextIndex t < len (buffer t) ->
    exists t',
      Stream t fs ok = Some (t', (len fs, ok))
      /\ len (buffer t') = len (buffer t)
      /\ nextIndex t' = (nextIndex t + len fs) mod len (buffer t).
Proof.
  intros t fs ok Hi.
  destruct (record_cursor fs t Hi) as (t' & Hr & Hb & Hc).
  exists t'. rewrite Stream_record, Hr. tauto.
Qed.

Lemma stream_cursor_advances_witness :
  exists t',
    Stream {| buffer := repeat zeroFrame 4; nextIndex := 3 |}
      [(1, 1); (2, 2); (3, 3)]%R true = Some (t', (3, true))
    /\ len (buffer t') = 4
    /\ nextIndex t' = 2.
Proof.
  exact (stream_cursor_advances
           {| buffer := repeat zeroFrame 4; nextIndex := 3 |}
           [(1, 1); (2, 2); (3, 3)]%R true ltac:(cbn; lia)).
Defined.

(** X2. [Stream] slides the window: what [snapshot] returns afterwards is
    the end of the full snapshot taken before, followed by the frames
    streamed. *)
Theorem stream_slides_window :
  forall t fs ok n,
    0 <= nextIndex t < len (buffer t) ->
    0 <= n ->
    exists old t',
      snapshot t (len (buffer t)) = Some old
      /\ Stream t fs ok = Some (t', (len fs, ok))
      /\ snapshot t' n
         = Some (lastn (Z.to_nat (Z.min n (len (buffer t)))) (old ++ fs)).
Proof.
  intros t fs ok n Hi Hn.
  destruct (record_spec fs t Hi) as (t' & Hr & Hi' & Hb & Hc).
  exists (chronological t), t'. split; [|split].
  - rewrite snapshot_chronological by (first [left; assumption | lia]).
    rewrite lastn_all; [reflexivity|].
    rewrite chronological_length. unfold len. lia.
  - rewrite Stream_record, Hr. reflexivity.
  - rewrite snapshot_chronological by (first [left; assumption | lia]).
    rewrite Hc. unfold len. rewrite Hb.
    rewrite lastn_lastn by lia. reflexivity.
Qed.

Lemma stream_slides_window_witness :
  exists old t',
    snapshot {| buffer := [(1, 1); (2, 2); (3, 3)]%R; nextIndex := 1 |} 3
    = Some old
    /\ Stream {| buffer := [(1, 1); (2, 2); (3, 3)]%R; nextIndex := 1 |}
         [(4, 4)]%R true = Some (t', (1, true))
    /\ snapshot t' 2 = Some (lastn 2 (old ++ [(4, 4)]%R)).
Proof.
  exact (stream_slides_window
           {| buffer := [(1, 1); (2, 2); (3, 3)]%R; nextIndex := 1 |}
           [(4, 4)]%R true 2 ltac:(cbn; lia) ltac:(lia)).
Defined.

(** X3. The tap depends on the frames streamed, not on how the calls cut
    them into batches, nor on the flags of the source. *)
Theorem stream_batching_irrelevant :
  forall t batches1 batches2,
    pushed batches1 = pushed batches2 ->
    Streams t batches1 = Streams t batches2.
Proof.
  intros t b1 b2 H. rewrite !Streams_record, H. reflexivity.
Qed.

Lemma stream_batching_irrelevant_witness :
  Streams {| buffer := repeat zeroFrame 2; nextIndex := 0 |}
    [([(1, 1)], true); ([(2, 2); (3, 3)], true)]%R
  = Streams {| buffer := repeat zeroFrame 2; nextIndex := 0 |}
      [([(1, 1); (2, 2)], true); ([], true); ([(3, 3)], false)]%R.
Proof.
  exact (stream_batching_irrelevant
           {| buffer := repeat zeroFrame 2; nextIndex := 0 |}
           [([(1, 1)], true); ([(2, 2); (3, 3)], true)]%R
           [([(1, 1); (2, 2)], true); ([], true); ([(3, 3)], false)]%R
           eq_refl).
Defined.

(** X4. A ring size below 0 makes [newVisualTap] panic; a ring of size 0 is
    built, every [Stream] call that delivers a frame then panics on its
    first write, a call that delivers none changes nothing, and [snapshot]
    is empty. *)
Theorem empty_ring_behaviour :
  (forall ringSize, ringSize < 0 -> newVisualTap ringSize = None)
  /\ newVisualTap 0 = Some {| buffer := []; nextIndex := 0 |}
  /\ forall t,
       buffer t = [] ->
       (forall f fs ok, Stream t (f :: fs) ok = None)
       /\ (forall ok, Stream t [] ok = Some (t, (0, ok)))
       /\ (forall n, 0 <= n -> snapshot t n = Some []).
Proof.
  split; [|split; [reflexivity|]].
  - intros ringSize H. unfold newVisualTap, make.
    destruct (Z.ltb_spec ringSize 0); [reflexivity | lia].
  - intros t Hb. split; [|split].
    + intros f fs ok. rewrite Stream_record.
      destruct (record (f :: fs) t) as [t'|] eqn:E; [|reflexivity].
      apply (record_empty_ring _ _ _ Hb) in E as [E _]. discriminate.
    + intros ok. reflexivity.
    + intros n Hn. unfold snapshot. rewrite Hb.
      assert ((if n >? len (@nil Frame) then len (@nil Frame) else n) = 0)
        as ->.
      { unfold len. cbn [length Z.of_nat].
        destruct (Z.gtb_spec n 0); lia. }
      reflexivity.
Qed.

Lemma empty_ring_behaviour_witness :
  Stream {| buffer := []; nextIndex := 0 |} [(1, 1)%R] true = None
  /\ snapshot {| buffer := []; nextIndex := 0 |} 2048 = Some [].
Proof.
  destruct (proj2 (proj2 empty_ring_behaviour)
              {| buffer := []; nextIndex := 0 |} eq_refl)
    as (Hpanic & _ & Hsnap).
  split; [apply Hpanic | apply Hsnap; lia].
Defined.

(** X5. [snapshot] does not depend on how much is asked beyond what is
    returned: a shorter snapshot is the end of a longer one, asking for more
    than the capacity gives the capacity, and a negative count panics. *)
Theorem snapshot_nesting :
  forall t,
    tap_ok t ->
    (forall n m out,
        0 <= m <= n -> snapshot t n = Some out ->
        snapshot t m = Some (lastn (Z.to_nat m) out))
    /\ (forall n, len (buffer t) <= n ->
          snapshot t n = snapshot t (len (buffer t)))
    /\ (forall n, n < 0 -> snapshot t n = None).
Proof.
  intros t Hok. pose proof (len_nonneg (buffer t)) as Hcap.
  split; [|split].
  - intros n m out Hm Hs.
    rewrite snapshot_chronological in Hs by (assumption || lia).
    injection Hs as <-.
    rewrite snapshot_chronological by (assumption || lia).
    f_equal.
    destruct (Z.le_gt_cases m (len (buffer t))) as [Hle|Hgt].
    + rewrite lastn_lastn by lia. f_equal. lia.
    + rewrite (lastn_all (Z.to_nat m)).
      * f_equal. lia.
      * rewrite lastn_length, chronological_length. unfold len in *. lia.
  - intros n Hn.
    rewrite !snapshot_chronological by (assumption || lia).
    do 2 f_equal. lia.
  - intros n Hn. unfold snapshot.
    destruct (Z.gtb_spec n (len (buffer t))); [lia|].
    destruct (Z.ltb_spec n 0); [reflexivity | lia].
Qed.

Lemma snapshot_nesting_witness :
  snapshot {| buffer := [(1, 1); (2, 2); (3, 3)]%R; nextIndex := 1 |} 2
  = Some (lastn 2 [(2, 2); (3, 3); (1, 1)]%R)
  /\ snapshot {| buffer := [(1, 1); (2, 2); (3, 3)]%R; nextIndex := 1 |} (-1)
     = None.
Proof.
  destruct (snapshot_nesting
              {| buffer := [(1, 1); (2, 2); (3, 3)]%R; nextIndex := 1 |}
              ltac:(left; cbn; lia))
    as (Hnest & _ & Hneg).
  split.
  - apply (Hnest 3 2); [lia | reflexivity].
  - apply Hneg. lia.
Defined.

(** ** The band analyzer *)

Section AnalyzerFurther.
Local Open Scope R_scope.
Implicit Types (samples seg : list Frame) (ad : list float64).

Lemma math_Pow_nonneg x y : 0 <= math_Pow x y.
Proof.
  unfold math_Pow. destruct (Req_dec_T x 0); [lra|].
  apply Rlt_le. unfold Rpower. apply exp_pos.
Qed.

Lemma bandAfter_nonneg size samples prev i :
  0 <= nth (Z.to_nat i) prev 0 -> 0 <= bandAfter size samples prev i.
Proof.
  intros Hp. unfold bandAfter.
  destruct (i * size <? len samples)%Z; [|exact Hp].
  unfold smooth, smoothingFactor.
  pose proof (math_Pow_nonneg (rms (segment samples (i * size) size)) (3 / 10)).
  unfold magnitude, float64 in *. nra.
Qed.

Lemma previousBands_same ad : len ad = nBands -> previousBands ad = ad.
Proof. intros H. unfold previousBands. rewrite H, Z.eqb_refl. reflexivity. Qed.

Lemma fold_squares_mono seg : forall acc : R,
  fold_left (fun acc f => acc + mono f * mono f) seg acc
  = fold_left (fun acc m => acc + m * m) (map mono seg) acc.
Proof.
  induction seg as [|f seg IH]; intros acc; [reflexivity|].
  cbn [map fold_left]. apply IH.
Qed.

Lemma magnitude_same_mono seg1 seg2 :
  same_mono seg1 seg2 -> magnitude seg1 = magnitude seg2.
Proof.
  unfold same_mono. intros H. unfold magnitude, rms, sumSquares.
  rewrite !fold_squares_mono, H.
  assert (len seg1 = len seg2) as ->; [|reflexivity].
  unfold len. f_equal.
  rewrite <- (length_map mono seg1), H. apply length_map.
Qed.

Lemma segment_same_mono s1 s2 start size :
  same_mono s1 s2 ->
  same_mono (segment s1 start size) (segment s2 start size).
Proof.
  unfold same_mono, segment. intros H.
  rewrite <- !firstn_map, <- !skipn_map, H. reflexivity.
Qed.
End AnalyzerFurther.

(** X6. Whatever the amplitudes of the snapshot, bands that are not
    negative stay so: the update never produces a negative band. *)
Theorem bands_never_negative :
  forall (samples : list Frame) (audioData : list float64),
    Forall (fun v => 0 <= v)%R audioData ->
    exists bands,
      analyze samples audioData = Some bands
      /\ Forall (fun v => 0 <= v)%R bands.
Proof.
  intros samples ad Ha.
  destruct (analyze_spec samples ad) as (bands & Hrun & Hlen & Hnth).
  exists bands. split; [exact Hrun|].
  assert (Forall (fun v => 0 <= v)%R (previousBands ad)) as Hp.
  { unfold previousBands. destruct (len ad =? nBands); [exact Ha|].
    apply Forall_forall. intros x Hx. apply repeat_spec in Hx. subst x. lra. }
  pose proof (previousBands_length ad) as Hpl.
  apply Forall_nth. intros j d Hj.
  rewrite (nth_indep _ d 0%R) by exact Hj.
  rewrite <- (Nat2Z.id j).
  rewrite Hnth by (unfold len, float64 in *; lia).
  apply bandAfter_nonneg. rewrite Nat2Z.id.
  apply (proj1 (Forall_nth (fun v => 0 <= v)%R (previousBands ad)));
    [exact Hp|].
  unfold len, float64 in *. lia.
Qed.

Lemma bands_never_negative_witness :
  exists bands,
    analyze [(-7, 3); (1000, -2)]%R [] = Some bands
    /\ Forall (fun v => 0 <= v)%R bands.
Proof.
  exact (bands_never_negative [(-7, 3); (1000, -2)]%R [] (Forall_nil _)).
Defined.

(** X7. Fed the same snapshot again and again, every band whose segment
    lies in the snapshot closes 40% of its distance to the magnitude of that
    segment at each update, so after [k] updates 0.6^k of the initial
    distance is left; the other bands never move. *)
Theorem steady_input_converges :
  forall samples audioData k,
    len audioData = nBands ->
    exists bands,
      analyze_n k samples audioData = Some bands
      /\ len bands = nBands
      /\ forall i, 0 <= i < nBands ->
           let size := segmentSizeOf (len samples) in
           let target := magnitude (segment samples (i * size) size) in
           (i * size < len samples ->
              (nth (Z.to_nat i) bands 0 - target
               = smoothingFactor ^ k
                 * (nth (Z.to_nat i) audioData 0 - target))%R)
           /\ (len samples <= i * size ->
                 nth (Z.to_nat i) bands 0%R = nth (Z.to_nat i) audioData 0%R).
Proof.
  intros samples ad k. revert ad.
  induction k as [|k IH]; intros ad Ha.
  - exists ad. split; [reflexivity|]. split; [exact Ha|].
    intros i Hi size target. split; intros _; [|reflexivity].
    cbn [pow]. unfold float64. ring.
  - destruct (analyze_spec samples ad) as (b1 & Hrun & Hlen & Hnth).
    destruct (IH b1 Hlen) as (bands & Hrun' & Hlen' & H').
    exists bands. cbn [analyze_n]. rewrite Hrun.
    split; [exact Hrun'|]. split; [exact Hlen'|].
    intros i Hi. cbv zeta.
    set (size := segmentSizeOf (len samples)).
    set (target := magnitude (segment samples (i * size) size)).
    specialize (H' i Hi). cbv zeta in H'. fold size target in H'.
    specialize (Hnth i Hi). rewrite previousBands_same in Hnth by exact Ha.
    unfold bandAfter in Hnth. fold size target in Hnth.
    destruct H' as [Hin Hout]. split; intros Hcase.
    + rewrite (Hin Hcase), Hnth.
      destruct (Z.ltb_spec (i * size) (len samples)); [|lia].
      unfold smooth. cbn [pow]. unfold float64. ring.
    + rewrite (Hout Hcase), Hnth.
      destruct (Z.ltb_spec (i * size) (len samples)); [lia | reflexivity].
Qed.

Lemma steady_input_converges_witness :
  exists bands,
    analyze_n 3 [(1, 1)]%R (repeat 0%R 64) = Some bands
    /\ len bands = nBands.
Proof.
  destruct (steady_input_converges [(1, 1)]%R (repeat 0%R 64) 3 eq_refl)
    as (bands & Hrun & Hlen & _).
  exists bands. split; assumption.
Defined.

(** X8. The update reads the snapshot through the per-frame mean of the two
    channels only: two snapshots with the same means give the same bands, so
    a signal whose channels are opposite is analysed as silence. *)
Theorem analyzer_reads_mono_mix :
  (forall samples1 samples2 audioData,
      same_mono samples1 samples2 ->
      analyze samples1 audioData = analyze samples2 audioData)
  /\ (forall samples audioData,
        Forall (fun f => fst f = (- snd f)%R) samples ->
        analyze samples audioData
        = analyze (repeat zeroFrame (length samples)) audioData).
Proof.
  assert (forall s1 s2 ad, same_mono s1 s2 -> analyze s1 ad = analyze s2 ad)
    as Hmain.
  { intros s1 s2 ad H.
    destruct (analyze_spec s1 ad) as (b1 & Hrun1 & Hlen1 & Hnth1).
    destruct (analyze_spec s2 ad) as (b2 & Hrun2 & Hlen2 & Hnth2).
    rewrite Hrun1, Hrun2. f_equal.
    assert (len s1 = len s2) as Hl.
    { unfold len. f_equal. unfold same_mono in H.
      rewrite <- (length_map mono s1), H. apply length_map. }
    apply (nth_ext b1 b2 0%R 0%R); [unfold len in *; lia|].
    intros j Hj. rewrite <- (Nat2Z.id j).
    rewrite Hnth1, Hnth2 by (unfold len, nBands in *; lia).
    unfold bandAfter. rewrite Hl.
    destruct (Z.of_nat j * segmentSizeOf (len s2) <? len s2); [|reflexivity].
    f_equal. apply magnitude_same_mono, segment_same_mono, H. }
  split; [exact Hmain|].
  intros samples ad H. apply Hmain. unfold same_mono.
  induction H as [|f l Hf _ IH]; [reflexivity|].
  cbn [length repeat map]. rewrite IH.
  assert (mono f = mono zeroFrame) as ->; [|reflexivity].
  unfold mono, zeroFrame. cbn [fst snd]. unfold Frame, float64 in *.
  rewrite Hf. lra.
Qed.

Lemma analyzer_reads_mono_mix_witness :
  analyze [(1, -1); (1 / 2, - (1 / 2))]%R []
  = analyze (repeat zeroFrame 2) [].
Proof.
  apply (proj2 analyzer_reads_mono_mix [(1, -1); (1 / 2, - (1 / 2))]%R []).
  repeat constructor; cbn [fst snd]; unfold float64; lra.
Defined.

(** X9. With the tap that [loadAndPlay] builds (8192 slots),
    [updateAudioData] never panics and always analyses 2048 frames, the
    last ones streamed (zero frames standing for those not yet streamed),
    in 64 full segments of 32 frames, and every call smooths all 64 bands;
    without a tap it changes nothing. *)
Theorem update_reads_last_2048 :
  (forall g, tap g = None -> updateAudioData g = Some g)
  /\ forall g batches t0 t,
       newVisualTap visualRingSize = Some t0 ->
       Streams t0 batches = Some t ->
       tap g = Some t ->
       let window :=
         lastn (Z.to_nat 2048)
           (repeat zeroFrame (Z.to_nat visualRingSize) ++ pushed batches) in
       exists bands,
         updateAudioData g = Some (set_audioData g bands)
         /\ len window = 2048
         /\ len bands = 64
         /\ forall i, 0 <= i < 64 ->
              len (segment window (32 * i) 32) = 32
              /\ nth (Z.to_nat i) bands 0%R
                 = smooth (nth (Z.to_nat i) (previousBands (audioData g)) 0%R)
                     (magnitude (segment window (32 * i) 32)).
Proof.
  split.
  - intros g H. unfold updateAudioData. rewrite H. reflexivity.
  - intros g batches t0 t H0 Hs Ht window.
    assert (len window = 2048) as Hw.
    { subst window. unfold len.
      rewrite lastn_length, length_app, repeat_length.
      unfold visualRingSize. lia. }
    unfold updateAudioData. rewrite Ht.
    rewrite (snapshot_from_new visualRingSize batches t0 t 2048 H0 Hs)
      by lia.
    change (Z.min 2048 visualRingSize) with 2048. fold window.
    assert ((len window =? 0) = false) as -> by (rewrite Hw; reflexivity).
    destruct (analyze_spec window (audioData g))
      as (bands & Hrun & Hlen & Hnth).
    exists bands. rewrite Hrun.
    split; [reflexivity|]. split; [exact Hw|]. split; [exact Hlen|].
    intros i Hi. split.
    + rewrite segment_length by lia. rewrite Hw. lia.
    + rewrite (Hnth i Hi). unfold bandAfter. rewrite Hw.
      change (segmentSizeOf 2048) with 32.
      destruct (Z.ltb_spec (i * 32) 2048); [|lia].
      rewrite (Z.mul_comm i 32). reflexivity.
Qed.

Lemma update_reads_last_2048_witness :
  exists bands,
    updateAudioData tenSecondGame = Some (set_audioData tenSecondGame bands)
    /\ len bands = 64.
Proof.
  destruct (proj2 update_reads_last_2048 tenSecondGame []
              {| buffer := repeat zeroFrame (Z.to_nat visualRingSize);
                 nextIndex := 0 |}
              {| buffer := repeat zeroFrame (Z.to_nat visualRingSize);
                 nextIndex := 0 |}
              eq_refl eq_refl eq_refl)
    as (bands & Hrun & _ & Hlen & _).
  exists bands. split; assumption.
Defined.

(** X10. [clamp01] maps into [0, 1], leaves [0, 1] fixed, is idempotent and
    keeps the order. *)
Theorem clamp01_properties :
  forall v w : float64,
    unit_interval (clamp01 v)
    /\ clamp01 (clamp01 v) = clamp01 v
    /\ (unit_interval v -> clamp01 v = v)
    /\ ((v <= w)%R -> (clamp01 v <= clamp01 w)%R).
Proof.
  intros v w. unfold unit_interval, clamp01.
  repeat split;
    repeat (match goal with
            | |- context [Rlt_dec ?a ?b] => destruct (Rlt_dec a b)
            end);
    try intros; unfold float64 in *; try lra.
Qed.

Lemma clamp01_properties_witness :
  clamp01 (1 / 2)%R = (1 / 2)%R /\ (clamp01 (-3) <= clamp01 7)%R.
Proof.
  destruct (clamp01_properties (1 / 2)%R 0%R) as (_ & _ & Hfix & _).
  destruct (clamp01_properties (-3)%R 7%R) as (_ & _ & _ & Hmono).
  split; [apply Hfix; unfold unit_interval; lra | apply Hmono; lra].
Defined.

(** ** The playback tracker *)

(** X11. [togglePause] does nothing before the first load; afterwards it
    flips the paused flag, keeps the flag of the mixer control equal to it,
    leaves position, duration, decoder and debounce clock alone, and two
    calls restore the paused flag. *)
Theorem togglePause_flips :
  forall g,
    (ctrl g = None -> togglePause g = g)
    /\ (ctrl g <> None ->
          paused (togglePause g) = negb (paused g)
          /\ ctrl (togglePause g) = Some (paused (togglePause g))
          /\ paused (togglePause (togglePause g)) = paused g)
    /\ audioPosition (togglePause g) = audioPosition g
    /\ audioDuration (togglePause g) = audioDuration g
    /\ streamer (togglePause g) = streamer g
    /\ lastSeekTime (togglePause g) = lastSeekTime g.
Proof.
  intros g. unfold togglePause.
  destruct (ctrl g) as [c|] eqn:E.
  - split; [discriminate|]. split; [|repeat split].
    intros _. cbn. rewrite negb_involutive. repeat split.
  - split; [reflexivity|]. split; [congruence|]. repeat split.
Qed.

Lemma togglePause_flips_witness :
  paused (togglePause tenSecondGame) = true
  /\ paused (togglePause (togglePause tenSecondGame)) = false.
Proof.
  destruct (togglePause_flips tenSecondGame) as (_ & H & _).
  destruct (H ltac:(discriminate)) as (H1 & _ & H2).
  split; [exact H1 | exact H2].
Defined.

Lemma tick_keeps g :
  streamer (updateAudioPosition g) = streamer g
  /\ paused (updateAudioPosition g) = paused g
  /\ audioDuration (updateAudioPosition g) = audioDuration g
  /\ sampleRate (updateAudioPosition g) = sampleRate g.
Proof.
  unfold updateAudioPosition.
  destruct (streamer g) eqn:E; [|rewrite E; tauto].
  destruct (paused g) eqn:P; [rewrite E, P; tauto|].
  cbn. rewrite E, P. tauto.
Qed.

Lemma tick_position g :
  loaded g -> position_in_range g ->
  streamer g <> None -> paused g = false ->
  audioPosition (updateAudioPosition g)
  = Z.min (audioDuration g) (audioPosition g + 16666666).
Proof.
  unfold position_in_range, updateAudioPosition, loaded.
  intros Hl Hp Hs Hpa. destruct (streamer g) as [d|]; [|congruence].
  rewrite Hpa.
  destruct Hl as [(Hsr & Hlen & Hfit) Hdur].
  assert (Z.quot Second 60 = 16666666) as Htick by reflexivity.
  assert (audioDuration g <= Len d * Second) as Hle.
  { rewrite Hdur, Z.quot_div_nonneg by (unfold Second in *; lia).
    apply Z.div_le_upper_bound; unfold Second in *; nia. }
  rewrite wrap64_small by int64_lia.
  cbn [audioPosition set_audioPosition]. rewrite Htick.
  destruct (Z.gtb_spec (audioPosition g + 16666666) (audioDuration g)); lia.
Qed.

(** X12. While a stream plays, [k] frames advance the position by
    16666666 ns each, stopping at the duration, where it stays; while
    paused, or without a stream, the position does not move. *)
Theorem ticks_advance_and_saturate :
  forall g k,
    loaded g -> position_in_range g ->
    (streamer g = None \/ paused g = true -> ticks k g = g)
    /\ (streamer g <> None -> paused g = false ->
          audioPosition (ticks k g)
          = Z.min (audioDuration g)
              (audioPosition g + Z.of_nat k * 16666666)
          /\ audioDuration (ticks k g) = audioDuration g).
Proof.
  intros g k Hl Hp. split.
  - intros H. induction k as [|k IH]; [reflexivity|].
    cbn [ticks].
    assert (updateAudioPosition g = g) as ->; [|exact IH].
    unfold updateAudioPosition. destruct H as [-> | H]; [reflexivity|].
    rewrite H. destruct (streamer g); reflexivity.
  - revert g Hl Hp. induction k as [|k IH]; intros g Hl Hp Hs Hpa.
    + cbn [ticks]. unfold position_in_range in Hp. split; lia.
    + cbn [ticks].
      destruct (tick_keeps g) as (Ks & Kp & Kd & Kr).
      pose proof (tick_position g Hl Hp Hs Hpa) as Hpos.
      destruct (IH (updateAudioPosition g)) as [Hk Hd].
      * unfold loaded in *. rewrite Ks, Kd, Kr. exact Hl.
      * apply tick_in_range; assumption.
      * rewrite Ks. exact Hs.
      * rewrite Kp. exact Hpa.
      * rewrite Hk, Hd, Kd, Hpos. unfold position_in_range in Hp.
        split; lia.
Qed.

Lemma ticks_advance_and_saturate_witness :
  audioPosition (ticks 60 tenSecondGame) = 999999960
  /\ audioPosition (ticks 601 tenSecondGame) = 10 * Second.
Proof.
  destruct (ticks_advance_and_saturate tenSecondGame 60
              (proj2 (proj2 tenSecondGame_loaded))
              ltac:(unfold position_in_range; cbn; lia))
    as [_ H60].
  destruct (ticks_advance_and_saturate tenSecondGame 601
              (proj2 (proj2 tenSecondGame_loaded))
              ltac:(unfold position_in_range; cbn; lia))
    as [_ H601].
  destruct (H60 ltac:(discriminate) eq_refl) as [E60 _].
  destruct (H601 ltac:(discriminate) eq_refl) as [E601 _].
  split; [rewrite E60 | rewrite E601]; reflexivity.
Defined.

Section SeekFurther.
Local Open Scope R_scope.

Lemma trunc_bounds x : 0 <= x -> IZR (trunc x) <= x < IZR (trunc x) + 1.
Proof.
  intros Hx. unfold trunc. destruct (Rle_dec 0 x); [|contradiction].
  destruct (base_Int_part x). lra.
Qed.

Lemma trunc_le x y : 0 <= x <= y -> (trunc x <= trunc y)%Z.
Proof.
  intros [Hx Hxy].
  pose proof (trunc_bounds x Hx). pose proof (trunc_bounds y ltac:(lra)).
  apply Z.lt_succ_r, lt_IZR. rewrite succ_IZR. lra.
Qed.

Lemma trunc_nonneg x : 0 <= x -> (0 <= trunc x)%Z.
Proof.
  intros Hx. rewrite <- (trunc_IZR 0) by lia. apply trunc_le. lra.
Qed.
End SeekFurther.



(** X14. A successful seek at a fraction [pos] of [0, 1] lands at or before
    the requested instant [pos * total], less than two sample periods and
    one nanosecond before it. *)
Theorem seek_lands_near_request :
  forall g d (pos : float64) now1 now2 seek,
    streamer g = Some d -> loaded g -> audioDuration g > 0 ->
    50 * Millisecond <= time_Sub now1 (lastSeekTime g) ->
    (0 <= pos <= 1)%R ->
    seek (seekTarget g (Len d) pos) = None ->
    exists g',
      seekToPosition g pos now1 now2 seek = Some g'
      /\ (IZR (audioPosition g') <= pos * IZR (audioDuration g))%R
      /\ (pos * IZR (audioDuration g)
          - 2 * (IZR Second / IZR (sampleRate g)) - 1
          < IZR (audioPosition g'))%R.
Proof.
  intros g d pos now1 now2 seek Hd Hl Hpos Hdue Hp Hok.
  rewrite (seek_attempt g d) by assumption. rewrite Hok.
  pose proof (loaded_positive_length g d Hd Hl Hpos) as Hlen.
  pose proof Hl as Hl0. unfold loaded in Hl0. rewrite Hd in Hl0.
  destruct Hl0 as [(Hsr & _ & Hfit) Hdur].
  assert (Len d <= maxInt64) as Hmax by int64_lia.
  pose proof (seekTarget_range g (Len d) pos ltac:(lia)) as Hr.
  destruct (seek_position g d _ Hd Hl Hr) as [Hdiv Hq].
  cbn [sampleRate set_streamer]. rewrite Hdiv.
  eexists. split; [reflexivity|].
  cbn [audioPosition set_lastSeekTime set_audioPosition].
  (* the integer facts *)
  set (sr := sampleRate g) in *. set (dur := audioDuration g) in *.
  assert (dur * sr <= Len d * Second) as Hds.
  { rewrite Hdur, Z.quot_div_nonneg by (unfold Second in *; lia).
    rewrite Z.mul_comm. apply Z.mul_div_le. lia. }
  set (v := (pos * IZR dur * IZR sr / IZR Second)%R).
  assert (0 < IZR sr)%R as HS by (apply IZR_lt; lia).
  assert (0 < IZR dur)%R as HD by (apply IZR_lt; lia).
  assert (IZR Second = 1000000000)%R as HE by reflexivity.
  assert (v * 1000000000 = pos * IZR dur * IZR sr)%R as Hv.
  { subst v. rewrite HE. field. }
  assert (0 <= v)%R as Hv0.
  { subst v. apply Rmult_le_pos; [|rewrite HE; lra].
    apply Rmult_le_pos; [apply Rmult_le_pos|]; lra. }
  pose proof (trunc_bounds v Hv0) as Hb.
  pose proof (trunc_nonneg v Hv0) as Hn.
  assert (trunc v <= Len d) as Htl.
  { apply Z.lt_succ_r, lt_IZR. rewrite succ_IZR.
    assert (IZR (dur * sr) <= IZR (Len d * Second))%R as H1
      by (apply IZR_le; exact Hds).
    rewrite !mult_IZR, HE in H1.
    assert (0 <= IZR dur * IZR sr)%R as H2
      by (apply Rmult_le_pos; lra).
    assert (pos * IZR dur * IZR sr <= IZR dur * IZR sr)%R as H3.
    { rewrite Rmult_assoc. rewrite <- (Rmult_1_l (IZR dur * IZR sr)) at 2.
      apply Rmult_le_compat_r; lra. }
    lra. }
  set (target := seekTarget g (Len d) pos) in *.
  assert (trunc v - 1 <= target <= trunc v) as Htg.
  { subst target. unfold seekTarget.
    destruct (Rlt_dec pos 0); [lra|]. destruct (Rlt_dec 1 pos); [lra|].
    fold sr dur v.
    destruct (Z.ltb_spec (trunc v) 0); [lia|].
    destruct (Z.geb_spec (trunc v) (Len d));
      [rewrite wrap64_small by int64_lia|]; lia. }
  rewrite Z.quot_div_nonneg by (unfold Second; lia).
  set (p := target * Second / sr).
  pose proof (Z.mul_div_le (target * Second) sr ltac:(lia)) as Hp1.
  pose proof (Z.mul_succ_div_gt (target * Second) sr ltac:(lia)) as Hp2.
  fold p in Hp1, Hp2.
  apply IZR_le in Hp1. apply IZR_lt in Hp2.
  rewrite ?mult_IZR, ?succ_IZR, ?HE in Hp1.
  rewrite ?mult_IZR, ?succ_IZR, ?HE in Hp2.
  destruct Htg as [Hg1 Hg2]. apply IZR_le in Hg1, Hg2.
  rewrite minus_IZR in Hg1. rewrite HE.
  split.
  - apply (Rmult_le_reg_l (IZR sr)); [exact HS|]. nra.
  - apply (Rmult_lt_reg_l (IZR sr)); [exact HS|].
    replace (IZR sr * (pos * IZR dur - 2 * (1000000000 / IZR sr) - 1))%R
      with (pos * IZR dur * IZR sr - 2 * 1000000000 - IZR sr)%R
      by (field; lra).
    nra.
Qed.

Lemma seek_lands_near_request_witness :
  exists g',
    seekToPosition tenSecondGame (1 / 3)%R 1000 2000 (fun _ => None)
    = Some g'
    /\ (IZR (audioPosition g') <= 1 / 3 * IZR (10 * Second))%R.
Proof.
  destruct (seek_lands_near_request tenSecondGame tenSecondStream (1 / 3)%R
              1000 2000 (fun _ => None)
              eq_refl (proj2 (proj2 tenSecondGame_loaded))
              ltac:(reflexivity)
              (tenSecondGame_seek_due 1000 ltac:(lia))
              ltac:(lra) eq_refl)
    as (g' & Hrun & Hle & _).
  exists g'. split; [exact Hrun | exact Hle].
Defined.

(** X15. Whatever its outcome, [seekToPosition] leaves the duration, the
    paused flag, the mixer control, the ring, the bands, the sample rate and
    the length of the decoder as they were: a seek neither pauses nor
    resumes, and does not clear what the visualization shows. *)
Theorem seek_touches_only_position :
  forall g pos now1 now2 seek g',
    seekToPosition g pos now1 now2 seek = Some g' ->
    audioDuration g' = audioDuration g
    /\ paused g' = paused g
    /\ ctrl g' = ctrl g
    /\ tap g' = tap g
    /\ audioData g' = audioData g
    /\ sampleRate g' = sampleRate g
    /\ option_map Len (streamer g') = option_map Len (streamer g).
Proof.
  intros g pos now1 now2 seek g'. unfold seekToPosition.
  destruct (streamer g) as [d|] eqn:Hd.
  - destruct (time_Sub now1 (lastSeekTime g) <? 50 * Millisecond).
    + intros [= <-]. rewrite Hd. repeat split.
    + destruct (seek (seekTarget g (Len d) pos)).
      * intros [= <-]. cbn. repeat split.
      * destruct (div64 _ _); [|discriminate].
        intros [= <-]. cbn. repeat split.
  - intros [= <-]. rewrite Hd. repeat split.
Qed.

Lemma seek_touches_only_position_witness :
  exists g',
    seekToPosition (togglePause tenSecondGame) (1 / 2)%R 1000 2000
      (fun _ => Some (mkError 1)) = Some g'
    /\ paused g' = true /\ tap g' = tap tenSecondGame.
Proof.
  assert (exists g',
             seekToPosition (togglePause tenSecondGame) (1 / 2)%R 1000 2000
               (fun _ => Some (mkError 1)) = Some g') as [g' H].
  { rewrite (seek_attempt (togglePause tenSecondGame) tenSecondStream)
      by (reflexivity || exact (tenSecondGame_seek_due 1000 ltac:(lia))).
    eexists. reflexivity. }
  exists g'. split; [exact H|].
  destruct (seek_touches_only_position _ _ _ _ _ _ H)
    as (_ & Hp & _ & Ht & _).
  split; [exact Hp | exact Ht].
Defined.

(** X16. After the end of the stream the position stays at 0: frames and
    seek requests change nothing and the progress bar is not drawn. The
    callback keeps the ring and the mixer control, so the analyzer goes on
    reading the last frames streamed and [togglePause] still flips the
    flag. *)
Theorem after_stream_end :
  forall g,
    (forall k, ticks k (streamEnded g) = streamEnded g)
    /\ (forall pos now1 now2 seek,
          seekToPosition (streamEnded g) pos now1 now2 seek
          = Some (streamEnded g))
    /\ drawProgressBar (streamEnded g) = None
    /\ updateAudioData (streamEnded g)
       = option_map streamEnded (updateAudioData g)
    /\ togglePause (streamEnded g) = streamEnded (togglePause g).
Proof.
  intros g. split; [|split; [|split; [|split]]].
  - intros k. induction k as [|k IH]; [reflexivity|].
    cbn [ticks]. exact IH.
  - reflexivity.
  - reflexivity.
  - unfold updateAudioData. cbn [tap streamEnded audioData].
    destruct (tap g) as [t|]; [|reflexivity].
    destruct (snapshot t 2048) as [samples|]; [|reflexivity].
    destruct (len samples =? 0); [reflexivity|].
    destruct (analyze samples (audioData g)); reflexivity.
  - unfold togglePause. cbn [ctrl streamEnded].
    destruct (ctrl g); reflexivity.
Qed.

(** X17. Loading a playable decoder never panics; it starts at position 0,
    unpaused, with the duration [Len * 1e9 / sampleRate] ns (the length in
    samples rounded down to a nanosecond) and a ring of zero frames; it
    keeps the bands and the debounce clock of the previous stream, so a
    seek within 50ms of the last successful one is still ignored. *)
Theorem load_starts_playback :
  forall g d sr,
    playable d sr ->
    exists g' t,
      loadAndPlay g d sr = Some g'
      /\ audioPosition g' = 0 /\ paused g' = false
      /\ streamer g' = Some d /\ sampleRate g' = sr
      /\ audioDuration g' = Len d * Second / sr
      /\ tap g' = Some t
      /\ (forall n, 0 <= n ->
            snapshot t n
            = Some (repeat zeroFrame (Z.to_nat (Z.min n visualRingSize))))
      /\ audioData g' = audioData g
      /\ lastSeekTime g' = lastSeekTime g
      /\ (forall pos now1 now2 seek,
            time_Sub now1 (lastSeekTime g) < 50 * Millisecond ->
            seekToPosition g' pos now1 now2 seek = Some g').
Proof.
  intros g d sr Hpl. pose proof Hpl as (Hsr & Hlen & Hfit).
  destruct (div64_duration (Len d) sr Hsr Hlen Hfit) as [Hdiv Hq].
  unfold loadAndPlay.
  assert (newVisualTap visualRingSize
          = Some {| buffer := repeat zeroFrame (Z.to_nat visualRingSize);
                    nextIndex := 0 |}) as Htap by reflexivity.
  rewrite Htap, Hdiv.
  eexists. eexists. split; [reflexivity|].
  cbn [audioPosition paused streamer sampleRate audioDuration tap audioData
       lastSeekTime].
  repeat (split; [reflexivity|]).
  split; [apply Z.quot_div_nonneg; unfold Second; lia|].
  split; [reflexivity|]. split.
  - intros n Hn.
    rewrite (snapshot_from_new visualRingSize [] _ _ n Htap eq_refl Hn).
    unfold pushed. cbn [map concat]. rewrite app_nil_r, lastn_repeat.
    do 2 f_equal. unfold visualRingSize. lia.
  - repeat (split; [reflexivity|]).
    intros pos now1 now2 seek Hdeb. apply seek_debounced. exact Hdeb.
Qed.

Lemma load_starts_playback_witness :
  exists g' t,
    loadAndPlay NewGame tenSecondStream 44100 = Some g'
    /\ audioDuration g' = 10 * Second
    /\ tap g' = Some t
    /\ snapshot t 3 = Some [zeroFrame; zeroFrame; zeroFrame].
Proof.
  destruct (load_starts_playback NewGame tenSecondStream 44100
              (proj1 (proj2 tenSecondGame_loaded)))
    as (g' & t & Hrun & _ & _ & _ & _ & Hdur & Htap & Hsnap & _).
  exists g', t. split; [exact Hrun|]. split; [exact Hdur|].
  split; [exact Htap|]. apply (Hsnap 3). lia.
Defined.

(** X18. No operation of the player clears [lastErr]: once an error is
    stored, every later state shows one. *)
Theorem error_never_cleared :
  forall g g',
    step g g' -> lastErr g <> None -> lastErr g' <> None.
Proof.
  intros g g' Hstep He.
  destruct Hstep as [g | g pos now1 now2 seek g' Hs Hd Hrun | g
                    | g g' Hrun | g d sr g' Hpl Hrun | g].
  - unfold updateAudioPosition.
    destruct (streamer g); [|exact He]. destruct (paused g); exact He.
  - unfold seekToPosition in Hrun.
    destruct (streamer g) as [d|]; [|injection Hrun as <-; exact He].
    destruct (time_Sub now1 (lastSeekTime g) <? 50 * Millisecond);
      [injection Hrun as <-; exact He|].
    destruct (seek (seekTarget g (Len d) pos)).
    + injection Hrun as <-. discriminate.
    + destruct (div64 _ _); [|discriminate].
      injection Hrun as <-. exact He.
  - unfold togglePause. destruct (ctrl g); exact He.
  - unfold updateAudioData in Hrun.
    destruct (tap g) as [t|]; [|injection Hrun as <-; exact He].
    destruct (snapshot t 2048) as [samples|]; [|discriminate].
    destruct (len samples =? 0); [injection Hrun as <-; exact He|].
    destruct (analyze samples (audioData g)); [|discriminate].
    injection Hrun as <-. exact He.
  - unfold loadAndPlay in Hrun.
    destruct (newVisualTap visualRingSize); [|discriminate].
    destruct (div64 _ _); [|discriminate].
    injection Hrun as <-. exact He.
  - exact He.
Qed.

Lemma error_never_cleared_witness :
  lastErr (streamEnded (set_lastErr tenSecondGame (Some (mkError 3))))
  <> None.
Proof.
  apply (error_never_cleared
           (set_lastErr tenSecondGame (Some (mkError 3)))
           (streamEnded (set_lastErr tenSecondGame (Some (mkError 3))))
           (step_end _)).
  discriminate.
Defined.

(** X19. In every state the player reaches, the progress bar is drawn
    exactly when a stream of non-zero duration is loaded, and then the
    progress lies in [0, 1], the fill is no wider than the bar and the
    indicator stays on the bar. *)
Theorem progress_bar_stays_on_track :
  forall g,
    reachable g ->
    (drawProgressBar g = None
     <-> streamer g = None \/ audioDuration g = 0)
    /\ forall v,
         drawProgressBar g = Some v ->
         (0 <= progress v <= 1)%R
         /\ (IZR barX <= indicatorX v <= IZR (barX + barWidth))%R
         /\ forall w, fillWidth v = Some w -> (0 < w <= IZR barWidth)%R.
Proof.
  intros g Hreach.
  destruct (reachable_invariant g Hreach) as [Hp Hl].
  unfold position_in_range in Hp. unfold drawProgressBar.
  destruct (streamer g) as [d|] eqn:Hd.
  - destruct (Z.eqb_spec (audioDuration g) 0) as [E|E].
    + split; [tauto | discriminate].
    + split.
      { split; [discriminate|]. intros [H|H]; [discriminate | contradiction]. }
      intros v [= <-]. cbn [progress indicatorX fillWidth].
      destruct (Z.gtb_spec (audioDuration g) 0); [|lia].
      assert (0 < IZR (audioDuration g))%R as HD by (apply IZR_lt; lia).
      assert (0 <= IZR (audioPosition g) <= IZR (audioDuration g))%R
        as [H0 H1] by (split; apply IZR_le; lia).
      set (pr := (IZR (audioPosition g) / IZR (audioDuration g))%R).
      assert (0 <= pr <= 1)%R as Hpr.
      { subst pr. split.
        - apply Rmult_le_pos; [exact H0|].
          apply Rlt_le, Rinv_0_lt_compat, HD.
        - apply (Rmult_le_reg_r (IZR (audioDuration g))); [exact HD|].
          unfold Rdiv. rewrite Rmult_assoc, Rinv_l by lra. lra. }
      assert (IZR barWidth = 984)%R as HW by reflexivity.
      assert (IZR barX = 20)%R as HX by reflexivity.
      assert (IZR (barX + barWidth) = 1004)%R as HXW by reflexivity.
      rewrite HW, HX, HXW.
      split; [exact Hpr|]. split; [lra|].
      intros w. destruct (Rlt_dec 0 pr); [|discriminate].
      intros [= <-]. nra.
  - split; [tauto | discriminate].
Qed.

Lemma progress_bar_stays_on_track_witness :
  exists v,
    drawProgressBar tenSecondGame = Some v
    /\ (0 <= progress v <= 1)%R.
Proof.
  destruct (progress_bar_stays_on_track tenSecondGame
              (reach_step NewGame tenSecondGame reach_new
                 (step_load NewGame tenSecondStream 44100 tenSecondGame
                    (proj1 (proj2 tenSecondGame_loaded))
                    (proj1 tenSecondGame_loaded))))
    as [_ H].
  eexists. split; [reflexivity|].
  exact (proj1 (H _ eq_refl)).
Defined.

(** ** Colours and labels *)

Section Colours.
Local Open Scope R_scope.

Lemma math_Mod_range x y : 0 <= x -> 0 < y -> 0 <= math_Mod x y < y.
Proof.
  intros Hx Hy. unfold math_Mod.
  assert (0 <= x / y) as Hq.
  { apply Rmult_le_pos; [exact Hx|]. apply Rlt_le, Rinv_0_lt_compat, Hy. }
  pose proof (trunc_bounds (x / y) Hq) as [H1 H2].
  assert (x = y * (x / y)) as Hxy by (field; lra).
  set (t := IZR (trunc (x / y))) in *. set (q := x / y) in *.
  clearbody t q. subst x. nra.
Qed.

Lemma uint8_range x : 0 <= x <= 255 -> (0 <= uint8 x <= 255)%Z.
Proof.
  intros [H0 H1]. unfold uint8. split; [apply trunc_nonneg, H0|].
  rewrite <- (trunc_IZR 255) by lia. apply trunc_le. lra.
Qed.

Lemma uint8_le x y : 0 <= x <= y -> (uint8 x <= uint8 y)%Z.
Proof. apply trunc_le. Qed.

(** X20. For a hue that is not negative and saturation and value in
    [0, 1], every channel of [hsvToRgb] is a byte (the conversions to uint8
    are in range), no channel is below the one of the grey level
    [v - v * s] nor above the one of the value [v], and without saturation
    the three channels are equal. *)
Theorem hsv_channels_are_bytes :
  forall h s v : float64,
    0 <= h -> 0 <= s <= 1 -> 0 <= v <= 1 ->
    let '(r, g, b) := hsvToRgb h s v in
    let lo := uint8 ((v - v * s) * 255) in
    let hi := uint8 (v * 255) in
    (0 <= lo /\ hi <= 255)%Z
    /\ (lo <= r <= hi /\ lo <= g <= hi /\ lo <= b <= hi)%Z
    /\ (s = 0 -> r = hi /\ g = hi /\ b = hi).
Proof.
  intros h s v Hh Hs Hv. unfold hsvToRgb.
  pose proof (math_Mod_range h 360 Hh ltac:(lra)) as Hm.
  set (hm := math_Mod h 360) in *. clearbody hm.
  assert (0 <= hm / 60) as Hq by lra.
  pose proof (math_Mod_range (hm / 60) 2 Hq ltac:(lra)) as Hk.
  set (k := math_Mod (hm / 60) 2) in *. clearbody k.
  assert (0 <= 1 - Rabs (k - 1) <= 1) as Hf.
  { unfold Rabs. destruct (Rcase_abs (k - 1)); lra. }
  set (f := 1 - Rabs (k - 1)) in *. clearbody f.
  set (c := v * s).
  assert (0 <= c <= v) as Hc by (subst c; nra).
  assert (0 <= c * f <= c) as Hx by nra.
  set (x := c * f) in *. clearbody x.
  set (m := v - c).
  assert (forall y, 0 <= y <= c ->
            (uint8 (m * 255)%R <= uint8 ((y + m) * 255)%R
             <= uint8 (v * 255)%R)%Z)
    as Hch.
  { intros y Hy. subst m. split; apply uint8_le; lra. }
  assert ((0 <= uint8 (m * 255)%R)%Z /\ (uint8 (v * 255)%R <= 255)%Z)
    as Hends.
  { subst m. split; [apply uint8_range | apply uint8_range]; lra. }
  assert (s = 0 ->
          forall y, 0 <= y <= c ->
            uint8 ((y + m) * 255) = uint8 (v * 255)) as Hgrey.
  { intros -> y Hy. subst m c. f_equal. lra. }
  assert (0 <= 0 <= c) as H0 by lra.
  assert (0 <= c <= c) as Hcc by lra.
  repeat (match goal with
          | |- context [Rlt_dec ?a ?b] => destruct (Rlt_dec a b)
          end);
    (split; [exact Hends|]; split;
     [repeat split; apply Hch; assumption
     | intros E; repeat split; apply (Hgrey E); assumption]).
Qed.

Lemma hsv_channels_are_bytes_witness :
  let '(r, g, b) := hsvToRgb 200 (8 / 10) (9 / 10) in
  (0 <= r <= 255 /\ 0 <= g <= 255 /\ 0 <= b <= 255)%Z.
Proof.
  pose proof (hsv_channels_are_bytes 200 (8 / 10) (9 / 10)
                ltac:(lra) ltac:(lra) ltac:(lra)) as H.
  destruct (hsvToRgb 200 (8 / 10) (9 / 10)) as [[r g] b].
  destruct H as ((H0 & H1) & (Hr & Hg & Hb) & _).
  repeat split; lia.
Defined.
End Colours.

Section Labels.
Local Open Scope R_scope.

(** The float64 detour of [d.Minutes()] and [d.Seconds()] ends on the
    integer quotient. *)
Lemma trunc_quot_rem d m :
  (0 < m)%Z ->
  trunc (IZR (Z.quot d m) + IZR (Z.rem d m) / IZR m) = Z.quot d m.
Proof.
  intros Hm.
  assert (0 < IZR m) as Hm' by (apply IZR_lt; exact Hm).
  destruct (Z.le_gt_cases 0 d) as [Hd|Hd].
  - pose proof (Z.rem_bound_pos d m Hd Hm) as Hr.
    assert (0 <= IZR (Z.rem d m) / IZR m < 1) as [Hf0 Hf1].
    { split.
      - apply Rmult_le_pos; [apply IZR_le; lia|].
        apply Rlt_le, Rinv_0_lt_compat, Hm'.
      - apply (Rmult_lt_reg_r (IZR m)); [exact Hm'|].
        unfold Rdiv. rewrite Rmult_assoc, Rinv_l by lra.
        assert (IZR (Z.rem d m) < IZR m) by (apply IZR_lt; lia). lra. }
    assert (0 <= IZR (Z.quot d m))
      by (apply IZR_le, Z.quot_pos; lia).
    apply trunc_floor; lra.
  - assert (- m < Z.rem d m <= 0)%Z as Hr.
    { rewrite <- (Z.opp_involutive d), Z.rem_opp_l by lia.
      pose proof (Z.rem_bound_pos (- d) m ltac:(lia) Hm). lia. }
    assert (Z.quot d m <= 0)%Z as Hq.
    { rewrite <- (Z.opp_involutive d), Z.quot_opp_l by lia.
      pose proof (Z.quot_pos (- d) m ltac:(lia) ltac:(lia)). lia. }
    assert (d = m * Z.quot d m + Z.rem d m)%Z as Hdm
      by (apply Z.quot_rem'; lia).
    assert (-1 < IZR (Z.rem d m) / IZR m <= 0) as [Hf0 Hf1].
    { split.
      - apply (Rmult_lt_reg_r (IZR m)); [exact Hm'|].
        unfold Rdiv. rewrite Rmult_assoc, Rinv_l by lra.
        assert (IZR (- m) < IZR (Z.rem d m)) by (apply IZR_lt; lia).
        rewrite opp_IZR in *. lra.
      - apply (Rmult_le_reg_r (IZR m)); [exact Hm'|].
        unfold Rdiv. rewrite Rmult_assoc, Rinv_l by lra.
        assert (IZR (Z.rem d m) <= 0) by (apply IZR_le; lia). lra. }
    assert (IZR (Z.quot d m) <= 0) as Hq' by (apply IZR_le; exact Hq).
    set (x := IZR (Z.quot d m) + IZR (Z.rem d m) / IZR m).
    unfold trunc. destruct (Rle_dec 0 x) as [Hx|Hx].
    + assert (x = 0) as Hx0 by (subst x; lra).
      assert (IZR (Z.quot d m) = 0) as E2 by (subst x; lra).
      apply eq_IZR in E2. rewrite Hx0, E2.
      symmetry. apply Int_part_spec. lra.
    + assert (Int_part (- x) = (- Z.quot d m)%Z) as ->; [|lia].
      symmetry. apply Int_part_spec. rewrite opp_IZR. subst x. lra.
Qed.

Lemma string_length_append (a b : string) :
  String.length (String.append a b)
  = (String.length a + String.length b)%nat.
Proof.
  induction a as [|ch a IH]; [reflexivity|].
  cbn [String.append String.length]. rewrite IH. reflexivity.
Qed.

Lemma fmt_02d_width z :
  (0 <= z < 100)%Z -> String.length (fmt_02d z) = 2%nat.
Proof.
  intros Hz.
  assert (forallb (fun n => (String.length (fmt_02d (Z.of_nat n)) =? 2)%nat)
            (seq 0 100) = true) as H by (vm_compute; reflexivity).
  rewrite forallb_forall in H.
  specialize (H (Z.to_nat z)). rewrite Z2Nat.id in H by lia.
  apply Nat.eqb_eq, H, in_seq. lia.
Qed.
End Labels.

(** X21. [formatDuration] prints the whole minutes of the duration, which
    are not cut at 60, then the whole seconds modulo 60; for a duration that
    is not negative the seconds lie in 0..59, and below 100 minutes the
    label has exactly five characters. *)
Theorem formatDuration_fields :
  forall d,
    formatDuration d
    = String.append (fmt_02d (Z.quot d Minute))
        (String.append ":" (fmt_02d (Z.rem (Z.quot d Second) 60)))
    /\ (0 <= d ->
          0 <= Z.rem (Z.quot d Second) 60 <= 59
          /\ (d < 100 * Minute ->
                String.length (formatDuration d) = 5%nat)).
Proof.
  intros d.
  assert (formatDuration d
          = String.append (fmt_02d (Z.quot d Minute))
              (String.append ":" (fmt_02d (Z.rem (Z.quot d Second) 60))))
    as E.
  { unfold formatDuration, Duration_Minutes, Duration_Seconds.
    replace (60 * 1000000000)%R with (IZR Minute)
      by (unfold Minute, Second; rewrite mult_IZR; reflexivity).
    replace 1000000000%R with (IZR Second) by reflexivity.
    rewrite !trunc_quot_rem by reflexivity. reflexivity. }
  split; [exact E|].
  intros Hd.
  assert (0 <= Z.quot d Second) as Hq by (apply Z.quot_pos; unfold Second; lia).
  pose proof (Z.rem_bound_pos (Z.quot d Second) 60 Hq ltac:(lia)) as Hr.
  split; [lia|]. intros Hlt.
  rewrite E, !string_length_append, !fmt_02d_width; [reflexivity | lia |].
  split; [apply Z.quot_pos; unfold Minute, Second; lia|].
  apply Z.quot_lt_upper_bound; unfold Minute, Second in *; lia.
Qed.

Lemma formatDuration_fields_witness :
  0 <= Z.rem (Z.quot (3665 * Second) Second) 60 <= 59
  /\ String.length (formatDuration (3665 * Second)) = 5%nat.
Proof.
  destruct (formatDuration_fields (3665 * Second)) as [_ H].
  destruct (H ltac:(vm_compute; discriminate)) as [Hs Hl].
  split; [exact Hs|]. apply Hl. reflexivity.
Defined.

(** ** The progress bar of [Update] *)

Lemma overBar_fraction mouseX mouseY :
  overBar mouseX mouseY = true -> (0 <= barFraction mouseX <= 1)%R.
Proof.
  unfold overBar, barFraction. intros H.
  apply andb_true_iff in H as [H _].
  apply andb_true_iff in H as [H _].
  apply andb_true_iff in H as [H1 H2].
  apply Z.geb_le in H1. apply Z.leb_le in H2.
  assert (IZR barWidth = 984)%R as -> by reflexivity.
  assert (0 <= IZR (mouseX - barX) <= 984)%R as [Ha Hb].
  { split; [apply (IZR_le 0) | apply (IZR_le _ 984)];
      unfold barX, barWidth, windowWidth in *; lia. }
  lra.
Qed.

(** X22. With the cursor off the progress bar, or without a stream, or with
    a zero duration, [Update] leaves the playback state and the drag flag
    alone whatever the buttons do: no seek is issued, and a button released
    off the bar does not end a drag. *)
Theorem bar_input_off_track_ignored :
  forall p mouseX mouseY pressed released e1 e2,
    overBar mouseX mouseY = false
    \/ streamer (core p) = None
    \/ audioDuration (core p) <= 0 ->
    updateProgressBar p mouseX mouseY pressed released e1 e2
    = Some {| core := core p;
              progressBarHovered := overBar mouseX mouseY;
              progressBarDragging := progressBarDragging p;
              progressBarDragStart := progressBarDragStart p |}.
Proof.
  intros p mx my pressed released e1 e2 H. unfold updateProgressBar.
  cbn [core].
  destruct H as [H | [H | H]].
  - rewrite H. reflexivity.
  - rewrite H. rewrite andb_false_r. reflexivity.
  - destruct (Z.gtb_spec (audioDuration (core p)) 0); [lia|].
    rewrite andb_false_r. reflexivity.
Qed.

Lemma bar_input_off_track_ignored_witness :
  updateProgressBar
    {| core := tenSecondGame; progressBarHovered := true;
       progressBarDragging := true; progressBarDragStart := 0%R |}
    500 100 false true
    {| now1 := 0; now2 := 0; answer := fun _ => None |}
    {| now1 := 0; now2 := 0; answer := fun _ => None |}
  = Some {| core := tenSecondGame; progressBarHovered := false;
            progressBarDragging := true; progressBarDragStart := 0%R |}.
Proof.
  exact (bar_input_off_track_ignored
           {| core := tenSecondGame; progressBarHovered := true;
              progressBarDragging := true; progressBarDragStart := 0%R |}
           500 100 false true
           {| now1 := 0; now2 := 0; answer := fun _ => None |}
           {| now1 := 0; now2 := 0; answer := fun _ => None |}
           (or_introl eq_refl)).
Defined.

(** X23. A click on the bar seeks to the fraction under the cursor, which
    lies in [0, 1], and starts a drag; when that seek succeeds, the drag
    branch of the same frame cannot seek again, its request falling within
    50ms of the first. *)
Theorem bar_click_seeks_once :
  forall p mouseX mouseY e1 e2 d,
    overBar mouseX mouseY = true ->
    streamer (core p) = Some d -> loaded (core p) ->
    audioDuration (core p) > 0 ->
    50 * Millisecond <= time_Sub (now1 e1) (lastSeekTime (core p)) ->
    answer e1 (seekTarget (core p) (Len d) (barFraction mouseX)) = None ->
    time_Sub (now1 e2) (now2 e1) < 50 * Millisecond ->
    (0 <= barFraction mouseX <= 1)%R
    /\ exists g1,
         seekToPosition (core p) (barFraction mouseX)
           (now1 e1) (now2 e1) (answer e1) = Some g1
         /\ streamer g1
            = Some {| Len := Len d;
                      seekCalls :=
                        seekTarget (core p) (Len d) (barFraction mouseX)
                        :: seekCalls d |}
         /\ updateProgressBar p mouseX mouseY true false e1 e2
            = Some {| core := g1; progressBarHovered := true;
                      progressBarDragging := true;
                      progressBarDragStart := barFraction mouseX |}.
Proof.
  intros p mx my e1 e2 d Hover Hd Hl Hpos Hdue Hok Hwin.
  pose proof (overBar_fraction mx my Hover) as Hf.
  split; [exact Hf|].
  pose proof (loaded_positive_length _ d Hd Hl Hpos) as Hlen.
  pose proof Hl as Hl0. unfold loaded in Hl0. rewrite Hd in Hl0.
  destruct Hl0 as [(Hsr & _ & Hfit) Hdur].
  assert (Len d <= maxInt64) as Hmax by int64_lia.
  pose proof (seekTarget_range (core p) (Len d) (barFraction mx)
                ltac:(lia)) as Hr.
  destruct (seek_position (core p) d _ Hd Hl Hr) as [Hdiv _].
  assert (exists g1,
             seekToPosition (core p) (barFraction mx)
               (now1 e1) (now2 e1) (answer e1) = Some g1
             /\ streamer g1
                = Some {| Len := Len d;
                          seekCalls :=
                            seekTarget (core p) (Len d) (barFraction mx)
                            :: seekCalls d |}
             /\ lastSeekTime g1 = now2 e1
             /\ audioDuration g1 = audioDuration (core p))
    as (g1 & Hrun & Hs1 & Ht1 & Hd1).
  { rewrite (seek_attempt (core p) d) by assumption. rewrite Hok.
    cbn [sampleRate set_streamer]. rewrite Hdiv.
    eexists. split; [reflexivity|]. repeat split. }
  exists g1. split; [exact Hrun|]. split; [exact Hs1|].
  unfold updateProgressBar. cbn [core]. rewrite Hover, Hd.
  destruct (Z.gtb_spec (audioDuration (core p)) 0); [|lia].
  cbn [andb]. rewrite Hrun.
  cbn [andb progressBarDragging core progressBarDragStart].
  destruct (Rlt_dec (barFraction mx) 0); [lra|].
  destruct (Rlt_dec 1 (barFraction mx)); [lra|].
  destruct (Rlt_dec _ _); [|reflexivity].
  rewrite seek_debounced by (rewrite Ht1; exact Hwin). reflexivity.
Qed.

Lemma bar_click_seeks_once_witness :
  exists g1,
    seekToPosition tenSecondGame (barFraction 512) 1000 2000 (fun _ => None)
    = Some g1
    /\ updateProgressBar
         {| core := tenSecondGame; progressBarHovered := false;
            progressBarDragging := false; progressBarDragStart := 0%R |}
         512 400 true false
         {| now1 := 1000; now2 := 2000; answer := fun _ => None |}
         {| now1 := 3000; now2 := 4000; answer := fun _ => None |}
       = Some {| core := g1; progressBarHovered := true;
                 progressBarDragging := true;
                 progressBarDragStart := barFraction 512 |}.
Proof.
  destruct (bar_click_seeks_once
              {| core := tenSecondGame; progressBarHovered := false;
                 progressBarDragging := false; progressBarDragStart := 0%R |}
              512 400
              {| now1 := 1000; now2 := 2000; answer := fun _ => None |}
              {| now1 := 3000; now2 := 4000; answer := fun _ => None |}
              tenSecondStream
              eq_refl eq_refl (proj2 (proj2 tenSecondGame_loaded))
              ltac:(reflexivity)
              (tenSecondGame_seek_due 1000 ltac:(lia)) eq_refl
              ltac:(reflexivity))
    as (_ & g1 & Hrun & _ & Hupd).
  exists g1. split; [exact Hrun | exact Hupd].
Defined.

(** X24. A click whose seek the decoder refuses is retried at once: when
    the cursor is more than 1% of the bar away from the current position,
    the drag branch of the same frame calls the decoder a second time with
    the same offset, the failure having left the debounce clock alone. *)
Theorem bar_click_failure_retried :
  forall p mouseX mouseY e1 e2 d err1 err2,
    overBar mouseX mouseY = true ->
    streamer (core p) = Some d ->
    audioDuration (core p) > 0 ->
    50 * Millisecond <= time_Sub (now1 e1) (lastSeekTime (core p)) ->
    now1 e1 <= now1 e2 ->
    answer e1 (seekTarget (core p) (Len d) (barFraction mouseX))
    = Some err1 ->
    answer e2 (seekTarget (core p) (Len d) (barFraction mouseX))
    = Some err2 ->
    (1 / 100
     < Rabs (barFraction mouseX
             - IZR (audioPosition (core p))
               / IZR (audioDuration (core p))))%R ->
    exists g2,
      updateProgressBar p mouseX mouseY true false e1 e2
      = Some {| core := g2; progressBarHovered := true;
                progressBarDragging := true;
                progressBarDragStart := barFraction mouseX |}
      /\ streamer g2
         = Some {| Len := Len d;
                   seekCalls :=
                     seekTarget (core p) (Len d) (barFraction mouseX)
                     :: seekTarget (core p) (Len d) (barFraction mouseX)
                     :: seekCalls d |}
      /\ audioPosition g2 = audioPosition (core p)
      /\ lastErr g2 = Some err2.
Proof.
  intros p mx my e1 e2 d err1 err2 Hover Hd Hpos Hdue Hlater Herr1 Herr2 Hfar.
  pose proof (overBar_fraction mx my Hover) as Hf.
  set (target := seekTarget (core p) (Len d) (barFraction mx)) in *.
  set (d1 := {| Len := Len d; seekCalls := target :: seekCalls d |}).
  set (g1 := set_lastErr (set_streamer (core p) (Some d1)) (Some err1)).
  assert (seekToPosition (core p) (barFraction mx)
            (now1 e1) (now2 e1) (answer e1) = Some g1) as Hrun1.
  { rewrite (seek_attempt (core p) d) by assumption.
    fold target. rewrite Herr1. reflexivity. }
  assert (seekTarget g1 (Len d1) (barFraction mx) = target) as Htg
    by reflexivity.
  assert (seekToPosition g1 (barFraction mx)
            (now1 e2) (now2 e2) (answer e2)
          = Some (set_lastErr
                    (set_streamer g1
                       (Some {| Len := Len d;
                                seekCalls := target :: target :: seekCalls d |}))
                    (Some err2))) as Hrun2.
  { rewrite (seek_attempt g1 d1).
    - rewrite Htg, Herr2. reflexivity.
    - reflexivity.
    - pose proof (time_Sub_mono (now1 e1) (now1 e2)
                    (lastSeekTime (core p)) Hlater).
      change (lastSeekTime g1) with (lastSeekTime (core p)). lia. }
  exists (set_lastErr
            (set_streamer g1
               (Some {| Len := Len d;
                        seekCalls := target :: target :: seekCalls d |}))
            (Some err2)).
  split; [|split; [|split]].
  - unfold updateProgressBar. cbn [core]. rewrite Hover, Hd.
    destruct (Z.gtb_spec (audioDuration (core p)) 0); [|lia].
    cbn [andb]. rewrite Hrun1.
    cbn [andb progressBarDragging core progressBarDragStart].
    destruct (Rlt_dec (barFraction mx) 0); [lra|].
    destruct (Rlt_dec 1 (barFraction mx)); [lra|].
    change (audioPosition g1) with (audioPosition (core p)).
    change (audioDuration g1) with (audioDuration (core p)).
    destruct (Rlt_dec _ _); [|contradiction].
    rewrite Hrun2. reflexivity.
  - reflexivity.
  - reflexivity.
  - reflexivity.
Qed.

Lemma bar_click_failure_retried_witness :
  exists g2,
    updateProgressBar
      {| core := tenSecondGame; progressBarHovered := false;
         progressBarDragging := false; progressBarDragStart := 0%R |}
      512 400 true false
      {| now1 := 1000; now2 := 2000; answer := fun _ => Some (mkError 1) |}
      {| now1 := 3000; now2 := 4000; answer := fun _ => Some (mkError 2) |}
    = Some {| core := g2; progressBarHovered := true;
              progressBarDragging := true;
              progressBarDragStart := barFraction 512 |}
    /\ audioPosition g2 = 0
    /\ lastErr g2 = Some (mkError 2).
Proof.
  destruct (bar_click_failure_retried
              {| core := tenSecondGame; progressBarHovered := false;
                 progressBarDragging := false; progressBarDragStart := 0%R |}
              512 400
              {| now1 := 1000; now2 := 2000;
                 answer := fun _ => Some (mkError 1) |}
              {| now1 := 3000; now2 := 4000;
                 answer := fun _ => Some (mkError 2) |}
              tenSecondStream (mkError 1) (mkError 2)
              eq_refl eq_refl ltac:(reflexivity)
              (tenSecondGame_seek_due 1000 ltac:(lia))
              ltac:(cbn; lia) eq_refl eq_refl)
    as (g2 & Hupd & _ & Hpos & Herr).
  { cbn [core audioPosition audioDuration tenSecondGame].
    unfold barFraction.
    replace (IZR (512 - barX) / IZR barWidth - IZR 0 / IZR (10 * Second))%R
      with (492 / 984)%R.
    - rewrite Rabs_right; lra.
    - change (IZR (512 - barX)) with 492%R.
      change (IZR barWidth) with 984%R.
      change (IZR (10 * Second)) with 10000000000%R. lra. }
  exists g2. split; [exact Hupd|]. split; [exact Hpos | exact Herr].
Defined.
